(** * bitrise-init: the option tree (models/option.go) and the manual-config
      walk (cli), embedded over an explicit Go heap.

    Go pointers are locations of a finite store, maps are finite maps held
    by the node that owns them, slices are headers (backing array, length,
    capacity) over a store of arrays.  A [nil] pointer is [None]. *)

From stdpp Require Import gmap strings list fin_maps sorting.
From Stdlib Require Import Lia.

(** ** Outcomes of a Go computation *)

Inductive res (A : Type) : Type :=
  | Ok (a : A)      (* normal return *)
  | Panic           (* run-time panic: nil dereference, write to a nil map, bad slice bound *)
  | OutOfFuel.      (* the recursion budget of the model ran out *)
Arguments Ok {A} a.
Arguments Panic {A}.
Arguments OutOfFuel {A}.

Definition res_bind {A B} (r : res A) (k : A → res B) : res B :=
  match r with
  | Ok a => k a
  | Panic => Panic
  | OutOfFuel => OutOfFuel
  end.

Notation "'let*' x ':=' m 'in' k" := (res_bind m (fun x => k))
  (at level 10, x pattern, m at level 100, k at level 200).

Module Models.

Abbreviation loc := positive.

(** A slice header.  [s_arr = None] means there is no backing array: the
    [nil] slice, or the empty literal [[]string{}], whose capacity is 0. *)
Record slice := Slice {
  s_arr : option loc;
  s_len : nat;
  s_cap : nat
}.

Definition nil_slice : slice := Slice None 0 0.

(** type OptionModel struct (option.go:40-50).  [ChildOptionMap = None] is
    the nil map; an entry of the map may hold a nil pointer. *)
Record OptionModel := mkOptionModel {
  Title : string;
  EnvKey : string;
  Type_ : string;
  ChildOptionMap : option (gmap string (option loc));
  Config : string;
  Components : slice;
  Head : option loc
}.

Record heap := Heap {
  nodes : gmap loc OptionModel;
  arrays : gmap loc (list string)
}.

Definition empty_heap : heap := Heap ∅ ∅.

Definition set_ChildOptionMap (m : option (gmap string (option loc))) (o : OptionModel) :=
  mkOptionModel (Title o) (EnvKey o) (Type_ o) m (Config o) (Components o) (Head o).
Definition set_Config (c : string) (o : OptionModel) :=
  mkOptionModel (Title o) (EnvKey o) (Type_ o) (ChildOptionMap o) c (Components o) (Head o).
Definition set_Components (s : slice) (o : OptionModel) :=
  mkOptionModel (Title o) (EnvKey o) (Type_ o) (ChildOptionMap o) (Config o) s (Head o).
Definition set_Head (hd : option loc) (o : OptionModel) :=
  mkOptionModel (Title o) (EnvKey o) (Type_ o) (ChildOptionMap o) (Config o) (Components o) hd.
Definition set_Type (t : string) (o : OptionModel) :=
  mkOptionModel (Title o) (EnvKey o) t (ChildOptionMap o) (Config o) (Components o) (Head o).

(** Reading a map that may be nil: a nil map reads as the empty map. *)
Definition children (o : OptionModel) : gmap string (option loc) :=
  default ∅ (ChildOptionMap o).

(** ** Heap primitives *)

Definition load (h : heap) (l : loc) : res OptionModel :=
  match nodes h !! l with
  | Some o => Ok o
  | None => Panic
  end.

Definition store (l : loc) (o : OptionModel) (h : heap) : heap :=
  Heap (<[l := o]> (nodes h)) (arrays h).

Definition alloc (o : OptionModel) (h : heap) : loc * heap :=
  let l := fresh (dom (nodes h)) in (l, store l o h).

(** Update the node at [l] in place; a missing node is a panic. *)
Definition modify (l : loc) (f : OptionModel → OptionModel) (h : heap) : res heap :=
  let* o := load h l in Ok (store l (f o) h).

(** The elements a slice shows: the first [s_len] cells of its array. *)
Definition slice_elems (h : heap) (s : slice) : list string :=
  match s_arr s with
  | Some a => take (s_len s) (default [] (arrays h !! a))
  | None => []
  end.

Section WithRuntime.

(** The two choices Go leaves to the runtime.
    [growcap old needed] is the capacity [append] picks when it has to
    reallocate; [range m] is the order in which a [for ... range] loop
    visits the entries of [m].  Go fixes no order and may pick another
    one at each loop; the model takes one order per map content, and the
    properties proved below hold for every such choice. *)
Variable growcap : nat → nat → nat.
Variable range : gmap string (option loc) → list (string * option loc).

(** append(s, v) for a []string (used at option.go:105 and :121).  With
    spare capacity the new element is written into the shared backing
    array; otherwise the visible elements move to a fresh array. *)
Definition go_append (s : slice) (v : string) (h : heap) : slice * heap :=
  match s_arr s with
  | Some a =>
      if decide (s_len s < s_cap s) then
        (Slice (Some a) (S (s_len s)) (s_cap s),
         Heap (nodes h) (<[a := <[s_len s := v]> (default [] (arrays h !! a))]> (arrays h)))
      else
        let c := growcap (s_cap s) (S (s_len s)) in
        let a' := fresh (dom (arrays h)) in
        (Slice (Some a') (S (s_len s)) c,
         Heap (nodes h)
              (<[a' := slice_elems h s ++ v :: replicate (c - S (s_len s)) EmptyString]> (arrays h)))
  | None =>
      let c := growcap 0 1 in
      let a' := fresh (dom (arrays h)) in
      (Slice (Some a') 1 c,
       Heap (nodes h) (<[a' := v :: replicate (c - 1) EmptyString]> (arrays h)))
  end.

(** NewOption (option.go:53-60) *)
Definition NewOption (title envKey : string) (h : heap) : loc * heap :=
  alloc (mkOptionModel title envKey EmptyString (Some ∅) EmptyString nil_slice None) h.

(** NewConfigOption (option.go:63-69) *)
Definition NewConfigOption (name : string) (h : heap) : loc * heap :=
  alloc (mkOptionModel EmptyString EmptyString EmptyString (Some ∅) name nil_slice None) h.

(** IsConfigOption (option.go:80-82) *)
Definition IsConfigOption (o : OptionModel) : bool :=
  negb (String.eqb (Config o) EmptyString).

(** SetType (option.go:85-88) *)
Definition SetType (this : loc) (optionType : string) (h : heap) : res (loc * heap) :=
  let* h' := modify this (set_Type optionType) h in Ok (this, h').

(** IsValueOption (option.go:91-93) *)
Definition IsValueOption (o : OptionModel) : bool :=
  negb (String.eqb (Title o) EmptyString).

(** IsEmpty (option.go:96-98) *)
Definition IsEmpty (o : OptionModel) : bool :=
  negb (IsValueOption o) && negb (IsConfigOption o).

(** AddOption (option.go:101-114).  [this] is the receiver, which Go
    names [option]; it is re-read after each write, as the Go code does
    through the pointer, so that attaching a node under itself is
    modelled too. *)
Definition AddOption (this : loc) (forValue : string) (newOption : option loc)
    (h : heap) : res heap :=
  let* o := load h this in
  match ChildOptionMap o with
  | None => Panic                       (* assignment to entry in nil map *)
  | Some m =>
      let h1 := store this (set_ChildOptionMap (Some (<[forValue := newOption]> m)) o) h in
      match newOption with
      | None => Ok h1
      | Some n =>
          let* o1 := load h1 this in
          let '(s, h2) := go_append (Components o1) forValue h1 in
          let* h3 := modify n (set_Components s) h2 in
          let* o3 := load h3 this in
          match Head o3 with
          | None => modify n (set_Head (Some this)) h3   (* first option's head is nil *)
          | Some hd => modify n (set_Head (Some hd)) h3
          end
      end
  end.

(** AddConfig (option.go:117-130): the same body as AddOption. *)
Definition AddConfig (this : loc) (forValue : string) (newConfigOption : option loc)
    (h : heap) : res heap :=
  let* o := load h this in
  match ChildOptionMap o with
  | None => Panic
  | Some m =>
      let h1 := store this (set_ChildOptionMap (Some (<[forValue := newConfigOption]> m)) o) h in
      match newConfigOption with
      | None => Ok h1
      | Some n =>
          let* o1 := load h1 this in
          let '(s, h2) := go_append (Components o1) forValue h1 in
          let* h3 := modify n (set_Components s) h2 in
          let* o3 := load h3 this in
          match Head o3 with
          | None => modify n (set_Head (Some this)) h3
          | Some hd => modify n (set_Head (Some hd)) h3
          end
      end
  end.

(** Child (option.go:148-158): follow the components from the receiver; the
    walk stops with [false] at the first missing or nil entry. *)
Fixpoint Child (h : heap) (this : loc) (components : list string) : res (option loc * bool) :=
  match components with
  | [] => Ok (Some this, true)
  | component :: rest =>
      let* currentOption := load h this in
      match children currentOption !! component with
      | Some (Some childOption) => Child h childOption rest
      | _ => Ok (None, false)
      end
  end.

(** Parent (option.go:133-145).  [Components[:len-1]] panics on an empty
    slice (slice bounds out of range). *)
Definition Parent (h : heap) (this : loc) : res (option loc * string * bool) :=
  let* o := load h this in
  match Head o with
  | None => Ok (None, EmptyString, false)
  | Some hd =>
      let comps := slice_elems h (Components o) in
      match s_len (Components o) with
      | 0 => Panic
      | S n =>
          let parentComponents := take n comps in
          let* r := Child h hd parentComponents in
          match r with
          | (parentOption, true) =>
              match comps !! n with
              | Some underKey => Ok (parentOption, underKey, true)
              | None => Panic
              end
          | (_, false) => Ok (None, EmptyString, false)
          end
      end
  end.

(** LastChilds (option.go:161-194).  [scan] is the body of the [for ...
    range opt.ChildOptionMap] loop of the inner closure [walk]; [rec] is
    the recursive call.  [lastOptions] is the captured accumulator. *)
Fixpoint scan (rec : loc → list loc → res (list loc)) (h : heap) (opt : loc)
    (entries : list (string * option loc)) (lastOptions : list loc) : res (list loc) :=
  match entries with
  | [] => Ok lastOptions
  | (_, None) :: _ => Ok (lastOptions ++ [opt])
  | (_, Some childOption) :: rest =>
      let* co := load h childOption in
      if IsConfigOption co then Ok (lastOptions ++ [opt])
      else if IsEmpty co then Ok (lastOptions ++ [opt])
      else
        let* lastOptions' := rec childOption lastOptions in
        scan rec h opt rest lastOptions'
  end.

Fixpoint walk (fuel : nat) (h : heap) (opt : loc) (lastOptions : list loc) : res (list loc) :=
  match fuel with
  | 0 => OutOfFuel
  | S fuel' =>
      let* o := load h opt in
      if decide (size (children o) = 0) then Ok (lastOptions ++ [opt])
      else scan (walk fuel' h) h opt (range (children o)) lastOptions
  end.

Definition LastChilds (fuel : nat) (h : heap) (this : loc) : res (list loc) :=
  walk fuel h this [].

(** RemoveConfigs (option.go:197-204): [clearConfigs] is the inner loop
    over the children of one last child, [removeFrom] the outer loop. *)
Fixpoint clearConfigs (entries : list (string * option loc)) (h : heap) : res heap :=
  match entries with
  | [] => Ok h
  | (_, None) :: _ => Panic             (* child.Config is written through a nil pointer *)
  | (_, Some child) :: rest =>
      let* h' := modify child (set_Config EmptyString) h in
      clearConfigs rest h'
  end.

Fixpoint removeFrom (lastChilds : list loc) (h : heap) : res heap :=
  match lastChilds with
  | [] => Ok h
  | child :: rest =>
      let* o := load h child in
      let* h' := clearConfigs (range (children o)) h in
      removeFrom rest h'
  end.

Definition RemoveConfigs (fuel : nat) (this : loc) (h : heap) : res heap :=
  let* lastChilds := LastChilds fuel h this in
  removeFrom lastChilds h.

(** GetValues (option.go:233-243) *)
Definition GetValues (h : heap) (this : loc) : res (list string) :=
  let* o := load h this in
  if negb (String.eqb (Config o) EmptyString) then Ok [Config o]
  else Ok ((range (children o)).*1).

(** AttachToLastChilds (option.go:207-215): [attachValues] is the inner
    loop, [attachTo] the outer one.  The argument [opt] is handed to
    AddOption as it is. *)
Fixpoint attachValues (child : loc) (values : list string) (opt : option loc)
    (h : heap) : res heap :=
  match values with
  | [] => Ok h
  | value :: rest =>
      let* h' := AddOption child value opt h in
      attachValues child rest opt h'
  end.

Fixpoint attachTo (childs : list loc) (opt : option loc) (h : heap) : res heap :=
  match childs with
  | [] => Ok h
  | child :: rest =>
      let* values := GetValues h child in
      let* h' := attachValues child values opt h in
      attachTo rest opt h'
  end.

Definition AttachToLastChilds (fuel : nat) (this : loc) (opt : option loc)
    (h : heap) : res heap :=
  let* childs := LastChilds fuel h this in
  attachTo childs opt h.

End WithRuntime.

(** ** Copy through encoding/json *)

(** What encoding/json makes of a Go string when it writes it.  A Go
    string is a sequence of bytes; the encoder reads it rune by rune with
    utf8.DecodeRuneInString, and where that reports an error of width 1
    it writes the escape of U+FFFD and moves on by one byte.  The decoder
    turns the escape into the three bytes EF BF BD.  Well-formed
    sequences (one to four bytes, no overlong forms, no surrogates,
    nothing above U+10FFFF) come back as they were; so do the characters
    the encoder escapes (quotes, controls, the HTML characters, U+2028
    and U+2029), which the decoder unescapes.  [utf8_coerce s] is the
    string that comes back. *)
Definition byte_in (lo hi : N) (b : Ascii.ascii) : bool :=
  ((lo <=? Ascii.N_of_ascii b) && (Ascii.N_of_ascii b <=? hi))%N.

(** A continuation byte, 80..BF. *)
Definition cont (b : Ascii.ascii) : bool := byte_in 128 191 b.

(** The first byte of a two-byte sequence, C2..DF. *)
Definition lead2 (b0 : Ascii.ascii) : bool := byte_in 194 223 b0.

(** The first two bytes of a three-byte sequence: E0 A0..BF, E1..EC
    80..BF, ED 80..9F, EE..EF 80..BF. *)
Definition lead3 (b0 b1 : Ascii.ascii) : bool :=
  (byte_in 224 224 b0 && byte_in 160 191 b1)
  || (byte_in 225 236 b0 && cont b1)
  || (byte_in 237 237 b0 && byte_in 128 159 b1)
  || (byte_in 238 239 b0 && cont b1).

(** The first two bytes of a four-byte sequence: F0 90..BF, F1..F3
    80..BF, F4 80..8F. *)
Definition lead4 (b0 b1 : Ascii.ascii) : bool :=
  (byte_in 240 240 b0 && byte_in 144 191 b1)
  || (byte_in 241 243 b0 && cont b1)
  || (byte_in 244 244 b0 && byte_in 128 143 b1).

(** U+FFFD in UTF-8, followed by [rest]. *)
Definition replacement (rest : string) : string :=
  String (Ascii.ascii_of_N 239)
    (String (Ascii.ascii_of_N 191) (String (Ascii.ascii_of_N 189) rest)).

Fixpoint utf8_coerce (s : string) : string :=
  match s with
  | EmptyString => EmptyString
  | String b0 rest =>
      if byte_in 0 127 b0 then String b0 (utf8_coerce rest)
      else
        match rest with
        | String b1 rest1 =>
            if lead2 b0 && cont b1 then String b0 (String b1 (utf8_coerce rest1))
            else
              match rest1 with
              | String b2 rest2 =>
                  if lead3 b0 b1 && cont b2
                  then String b0 (String b1 (String b2 (utf8_coerce rest2)))
                  else
                    match rest2 with
                    | String b3 rest3 =>
                        if lead4 b0 b1 && cont b2 && cont b3
                        then String b0 (String b1 (String b2
                               (String b3 (utf8_coerce rest3))))
                        else replacement (utf8_coerce rest)
                    | EmptyString => replacement (utf8_coerce rest)
                    end
              | EmptyString => replacement (utf8_coerce rest)
              end
        | EmptyString => replacement (utf8_coerce rest)
        end
  end.

(** A tree of the five tagged fields of an OptionModel, by the struct
    tags of option.go:41-49; Components and Head carry [json:"-"] and
    never appear.  [value_map = None] is a nil map in a Go value and an
    absent key in a JSON document; a member without object is a nil
    pointer, [null] in a document.  The type serves for both: for the
    content of a Go value, where the keys of one map differ, and for the
    document the encoder writes, where two members can have one key. *)
#[warnings="-register-all"] Inductive jval : Type :=
  | JObj (title env_key type : string)
         (value_map : option (list (string * option jval)))
         (config : string).

Fixpoint mapM_res {A B} (f : A → res B) (l : list A) : res (list B) :=
  match l with
  | [] => Ok []
  | a :: l' => let* b := f a in let* bs := mapM_res f l' in Ok (b :: bs)
  end.

(** The serializable content reachable from a node, nil maps and nil
    children kept apart from empty maps, strings byte for byte, the
    entries of a map in the enumeration order of the finite map.  This
    is what reflect.DeepEqual would compare once Components and Head are
    left out.  [encodeEntry] handles one map entry, [rec] being the
    function for the child node. *)
Definition encodeEntry (rec : OptionModel → res jval) (h : heap)
    (kc : string * option loc) : res (string * option jval) :=
  match kc.2 with
  | None => Ok (kc.1, None)
  | Some c =>
      let* co := load h c in
      let* j := rec co in
      Ok (kc.1, Some j)
  end.

Fixpoint deepValue (fuel : nat) (h : heap) (o : OptionModel) : res jval :=
  match fuel with
  | 0 => OutOfFuel
  | S fuel' =>
      let* kids :=
        match ChildOptionMap o with
        | None => Ok None
        | Some m =>
            let* l := mapM_res (encodeEntry (deepValue fuel' h) h) (map_to_list m) in
            Ok (Some l)
        end in
      Ok (JObj (Title o) (EnvKey o) (Type_ o) kids (Config o))
  end.

(** The document the encoder writes for a content.  Every string goes
    through [utf8_coerce].  [omitempty] on value_map: a map of length 0,
    nil or not, is left out.  (On the string fields an omitted empty
    string decodes to the empty string again, so nothing is lost there.)
    The entries of a map are written in the order of their keys as Go
    compares strings, byte by byte, and the keys are coerced as they
    are written: [encodeMember] keeps the key of the map beside the
    member to sort by, [key_le] compares two such keys. *)
Definition encodeMember (rec : jval → jval) (kc : string * option jval)
    : string * (string * option jval) :=
  (kc.1, (utf8_coerce kc.1,
          match kc.2 with
          | None => None
          | Some j' => Some (rec j')
          end)).

Definition key_le (a b : string * (string * option jval)) : Prop :=
  Is_true (String.leb a.1 b.1).

#[global] Instance key_le_dec (a b : string * (string * option jval)) :
  Decision (key_le a b) := Is_true_dec (String.leb a.1 b.1).

Fixpoint encodeJSON (j : jval) : jval :=
  match j with
  | JObj t e ty kids c =>
      let kids' :=
        match kids with
        | None | Some [] => None
        | Some l => Some (merge_sort key_le (encodeMember encodeJSON <$> l)).*2
        end in
      JObj (utf8_coerce t) (utf8_coerce e) (utf8_coerce ty) kids' (utf8_coerce c)
  end.

(** json.Marshal of the dereferenced receiver.  [Ok None] is a non-nil
    error: the encoder fails on a value that contains itself.  A descent
    longer than the number of allocated nodes has met some node twice. *)
Definition json_Marshal (h : heap) (o : OptionModel) : res (option jval) :=
  match deepValue (S (size (nodes h))) h o with
  | Ok j => Ok (Some (encodeJSON j))
  | OutOfFuel => Ok None
  | Panic => Panic
  end.

(** json.Unmarshal(bytes, &optionCopy): every object becomes a freshly
    allocated node; an absent value_map leaves the nil map, [null] members
    become nil entries; Components and Head keep their zero values.
    [members] decodes the members of one value_map in the order of the
    document, [rec] being the decoder of a member object.  Each member
    is stored under its key as it is read, so of two members with one
    key the later one stays in the map; the node decoded for the earlier
    one stays allocated and is referred to by nothing. *)
Section Members.

Variable rec : jval → heap → loc * heap.

Fixpoint members (l : list (string * option jval)) (h : heap)
    : list (string * option loc) * heap :=
  match l with
  | [] => ([], h)
  | (k, oj) :: rest =>
      let '(v, h1) :=
        match oj with
        | None => (None, h)
        | Some j' => let '(c, h') := rec j' h in (Some c, h')
        end in
      let '(vs, h2) := members rest h1 in
      ((k, v) :: vs, h2)
  end.

End Members.

Fixpoint json_Unmarshal (j : jval) (h : heap) : loc * heap :=
  match j with
  | JObj t e ty kids c =>
      let '(m, h1) :=
        match kids with
        | None => (None, h)
        | Some l =>
            let '(vs, h1) := members json_Unmarshal l h in
            (Some (list_to_map (reverse vs)), h1)
        end in
      alloc (mkOptionModel t e ty m c nil_slice None) h1
  end.

(** Copy (option.go:218-230).  [None] is the nil result.  Decoding a
    document that the encoder produced for the same type does not fail,
    so the second error test (option.go:225-227) has no branch here. *)
Definition Copy (h : heap) (this : loc) : res (option loc * heap) :=
  let* o := load h this in
  let* bytes := json_Marshal h o in
  match bytes with
  | None => Ok (None, h)
  | Some j =>
      let '(optionCopy, h') := json_Unmarshal j h in
      Ok (Some optionCopy, h')
  end.

(** ** Predicates used to state the properties of the tree operations *)

(** The terminal test LastChilds applies to one map entry
    (option.go:172-185): nil, a config node, or an empty node. *)
Definition trip (o : OptionModel) : bool := IsConfigOption o || IsEmpty o.

Definition tripsb (h : heap) (c : option loc) : bool :=
  match c with
  | None => true
  | Some l =>
      match nodes h !! l with
      | Some co => trip co
      | None => false
      end
  end.

(** Every pointer met within [n] levels below [p] is allocated, and no
    chain of children from [p] is longer than [n]: the part of the heap
    under [p] is finite and free of cycles. *)
Fixpoint boundedb (h : heap) (n : nat) (p : loc) : bool :=
  match n with
  | 0 => false
  | S n' =>
      match nodes h !! p with
      | None => false
      | Some o =>
          forallb (λ kc : string * option loc,
                     match kc.2 with
                     | None => true
                     | Some c => boundedb h n' c
                     end) (map_to_list (children o))
      end
  end.

(** No node has both a title and a config name (spec, section 3). *)
Definition exclusiveb (h : heap) : bool :=
  forallb (λ lo : loc * OptionModel, negb (IsValueOption lo.2 && IsConfigOption lo.2))
          (map_to_list (nodes h)).

(** A slice header agrees with the store of arrays. *)
Definition slice_wfb (h : heap) (s : slice) : bool :=
  match s_arr s with
  | None => bool_decide (s_len s = 0) && bool_decide (s_cap s = 0)
  | Some a =>
      match arrays h !! a with
      | None => false
      | Some arr => bool_decide (s_len s ≤ s_cap s) && bool_decide (s_cap s = length arr)
      end
  end.

Definition heap_wfb (h : heap) : bool :=
  forallb (λ lo : loc * OptionModel, slice_wfb h (Components lo.2)) (map_to_list (nodes h)).

Section Visits.

Variable range : gmap string (option loc) → list (string * option loc).

(** [visited h p q]: the walk started at [p] calls itself on [q].  It
    descends into a child only when no entry scanned before it, nor the
    child itself, trips the terminal test. *)
Inductive visited (h : heap) : loc → loc → Prop :=
  | visited_here p : visited h p p
  | visited_below p o pre k c post q :
      nodes h !! p = Some o →
      range (children o) = pre ++ (k, Some c) :: post →
      Forall (λ e : string * option loc, tripsb h e.2 = false) pre →
      tripsb h (Some c) = false →
      visited h c q →
      visited h p q.

(** The asymmetric terminal predicate: no children, or some entry met by
    the scan trips the test. *)
Definition terminal (h : heap) (q : loc) : Prop :=
  ∃ o, nodes h !! q = Some o ∧
       (size (children o) = 0 ∨
        Exists (λ e : string * option loc, tripsb h e.2 = true) (range (children o))).

End Visits.

(** The values GetValues offers at a node, as a set. *)
Definition offers (o : OptionModel) (v : string) : Prop :=
  if negb (String.eqb (Config o) EmptyString) then v = Config o
  else is_Some (children o !! v).

(** [q] is reached from [p] through non-nil entries of children maps. *)
Inductive reach (h : heap) : loc → loc → Prop :=
  | reach_here p : reach h p p
  | reach_child p o k c q :
      nodes h !! p = Some o →
      children o !! k = Some (Some c) →
      reach h c q →
      reach h p q.

(** Nesting depth of a document. *)
Fixpoint jdepth (j : jval) : nat :=
  match j with
  | JObj _ _ _ kids _ =>
      S (match kids with
         | None => 0
         | Some l =>
             foldr (λ (kc : string * option jval) (n : nat),
                      match kc.2 with
                      | None => n
                      | Some j' => jdepth j' `max` n
                      end) 0 l
         end)
  end.


(** The content of the node that decoding a document gives: of the
    members with one key the last one, the entries in the enumeration
    order of the map they are stored in. *)
Definition decodeMember (rec : jval → jval) (kc : string * option jval)
    : string * option jval :=
  (kc.1, match kc.2 with
         | None => None
         | Some j' => Some (rec j')
         end).

Fixpoint decoded (j : jval) : jval :=
  match j with
  | JObj t e ty kids c =>
      let kids' :=
        match kids with
        | None => None
        | Some l =>
            Some (map_to_list
                    (list_to_map (reverse (decodeMember decoded <$> l))
                       : gmap string (option jval)))
        end in
      JObj t e ty kids' c
  end.


(** [extends h h']: [h'] is [h] with further nodes allocated; the new
    nodes have no path and no head, and point at new nodes only. *)
Definition extends (h h' : heap) : Prop :=
  arrays h' = arrays h
  ∧ (∀ x ox, nodes h !! x = Some ox → nodes h' !! x = Some ox)
  ∧ ∀ x ox, nodes h' !! x = Some ox → nodes h !! x = None →
      Components ox = nil_slice ∧ Head ox = None
      ∧ ∀ k c, children ox !! k = Some (Some c) → nodes h !! c = None.

(** [cleared h h']: [h'] is [h] with the config name of some nodes set to
    the empty string, and nothing else changed. *)
Definition cleared (h h' : heap) : Prop :=
  arrays h' = arrays h ∧
  ∀ x, nodes h' !! x = nodes h !! x
       ∨ nodes h' !! x = set_Config EmptyString <$> nodes h !! x.

Definition cfg_empty (h : heap) (x : loc) : Prop :=
  ∃ xo, nodes h !! x = Some xo ∧ Config xo = EmptyString.

(** [attached s h h']: [h'] comes from [h] by storing the pointer [s] in
    entries of children maps, and by rewriting fields other than the
    config name and the children map. *)
Definition attached (s : loc) (h h' : heap) : Prop :=
  (∀ x, nodes h !! x = None → nodes h' !! x = None) ∧
  ∀ x o, nodes h !! x = Some o →
    ∃ o', nodes h' !! x = Some o'
          ∧ Config o' = Config o
          ∧ (is_Some (ChildOptionMap o') ↔ is_Some (ChildOptionMap o))
          ∧ (∀ w, children o' !! w = children o !! w
                  ∨ children o' !! w = Some (Some s))
          ∧ (∀ w, offers o' w ↔ offers o w).

(** [placed h s c v]: the path and head of [s] are those of a node stored
    under key [v] of [c]. *)
Definition placed (h : heap) (s c : loc) (v : string) : Prop :=
  ∃ oc os, nodes h !! c = Some oc ∧ nodes h !! s = Some os
           ∧ slice_elems h (Components os) = slice_elems h (Components oc) ++ [v]
           ∧ Head os = Some (default c (Head oc)).

(** [decodes j]: decoding [j] allocates new nodes only, and the node it
    returns has [decoded j] as its serializable content. *)
Definition decodes (j : jval) : Prop :=
  ∀ h q h', json_Unmarshal j h = (q, h') →
    extends h h' ∧ nodes h !! q = None
    ∧ ∃ oq, nodes h' !! q = Some oq
            ∧ ∀ n, jdepth j ≤ n → deepValue n h' oq = Ok (decoded j).

(** [entry_content n h v w]: the value [v] of an entry of a children map
    has the content [w], nil for nil. *)
Definition entry_content (n : nat) (h : heap) (v : option loc) (w : option jval) : Prop :=
  match v, w with
  | None, None => True
  | Some c, Some j => ∃ co, nodes h !! c = Some co ∧ deepValue n h co = Ok j
  | _, _ => False
  end.

(** A map entry or document member reduced to its key and to whether its
    value is nil. *)
Definition entry_shape {A} (kc : string * option A) : string * bool :=
  (kc.1, if kc.2 is Some _ then true else false).

(** ** Concrete runtime choices and sample trees *)

(** The growth rule of the gc runtime for small slices: double, or take
    what is needed when that is more. *)
Definition gc_growcap (old needed : nat) : nat :=
  if decide (old + old < needed) then needed else old + old.

Definition range_canonical (m : gmap string (option loc)) : list (string * option loc) :=
  map_to_list m.

Definition from_ok (r : res heap) : heap :=
  match r with
  | Ok h => h
  | _ => empty_heap
  end.

(** A root (node 1) with the config nodes c1 (node 2) under "a" and c2
    (node 3) under "b"; node 4 is a value node that is not attached. *)
Definition two_configs : heap :=
  let '(root, h) := NewOption "Project" "PROJECT" empty_heap in
  let '(c1, h) := NewConfigOption "c1" h in
  let '(c2, h) := NewConfigOption "c2" h in
  let '(sub, h) := NewOption "Scheme" "SCHEME" h in
  from_ok (let* h := AddConfig gc_growcap root "a" (Some c1) h in
           AddConfig gc_growcap root "b" (Some c2) h).

(** A root (node 1) whose child under "a" (node 2) has both a title and
    a config name, and itself has the config node "d" (node 3) under "b". *)
Definition titled_config : heap :=
  let '(root, h) := NewOption "Project" "PROJECT" empty_heap in
  let '(x, h) := NewOption "Scheme" "SCHEME" h in
  let '(y, h) := NewConfigOption "d" h in
  from_ok (let* h := modify x (set_Config "c") h in
           let* h := AddOption gc_growcap root "a" (Some x) h in
           AddConfig gc_growcap x "b" (Some y) h).

(** A chain root (1) - "a" (2) - "b" (3) - "c" (4), and under node 4 the
    nodes 5, added under "x", and then 6, added under "y". *)
Definition deep_tree : heap :=
  let '(root, h) := NewOption "Project" "PROJECT" empty_heap in
  let '(a, h) := NewOption "A" "KEY_A" h in
  let '(b, h) := NewOption "B" "KEY_B" h in
  let '(c, h) := NewOption "C" "KEY_C" h in
  let '(x, h) := NewOption "X" "KEY_X" h in
  let '(y, h) := NewOption "Y" "KEY_Y" h in
  from_ok (let* h := AddOption gc_growcap root "a" (Some a) h in
           let* h := AddOption gc_growcap a "b" (Some b) h in
           let* h := AddOption gc_growcap b "c" (Some c) h in
           let* h := AddOption gc_growcap c "x" (Some x) h in
           AddOption gc_growcap c "y" (Some y) h).

(** A node (node 1) stored under its own key "a". *)
Definition self_loop : heap :=
  let '(root, h) := NewOption "Project" "PROJECT" empty_heap in
  from_ok (AddOption gc_growcap root "a" (Some root) h).

(** A root (node 1) holding a nil pointer under "a". *)
Definition nil_child : heap :=
  let '(root, h) := NewOption "Project" "PROJECT" empty_heap in
  from_ok (AddOption gc_growcap root "a" None h).

(** The string of the one byte [n]. *)
Definition byte_string (n : N) : string := String (Ascii.ascii_of_N n) EmptyString.

(** A root (node 1) whose title is the byte FF, which is no UTF-8, with
    a nil pointer under the key FE and the config node "c" (node 2)
    under the key FF. *)
Definition invalid_utf8 : heap :=
  let '(root, h) := NewOption (byte_string 255) "PROJECT" empty_heap in
  let '(c, h) := NewConfigOption "c" h in
  from_ok (let* h := AddOption gc_growcap root (byte_string 254) None h in
           AddConfig gc_growcap root (byte_string 255) (Some c) h).

End Models.

(** ** The manual-config command (cli, initManualConfig) *)

Module Cli.

(** models.OptionModel as this caller holds it: by value, with the
    children in the field ValueMap (line 186).  The struct declaration of
    that revision is not among the sources; the fields are those the
    walk and its prompt use.  ValueMap is kept as an association list
    read by key, first match; option values are finite trees. *)
#[warnings="-register-all"] Inductive OptionModel : Type :=
  mkOptionModel {
    Title : string;
    EnvKey : string;
    ValueMap : list (string * OptionModel)
  }.

(** nestedOptions, found := option.ValueMap[selectedValue] *)
Fixpoint lookupValue (selectedValue : string) (entries : list (string * OptionModel))
    : option OptionModel :=
  match entries with
  | [] => None
  | (k, nestedOptions) :: rest =>
      if decide (k = selectedValue) then Some nestedOptions
      else lookupValue selectedValue rest
  end.

(** envmanModels.EnvironmentItemModel{optionEnvKey: selectedValue}: a
    one-entry map, kept as the pair. *)
Definition EnvironmentItemModel : Type := string * string.

(** A Go [error] is its message; [None] is nil. *)
Definition error : Type := option string.

Section Walk.

(** [W] is the state of whatever the prompt reads from (the terminal, or
    a list of prepared answers).  askForValue is declared elsewhere in
    the package; it is the selection strategy. *)
Context {W : Type}.
Variable askForValue : OptionModel → W → (string * string * error) * W.

(** The variables the closure captures (lines 167-168) and the world. *)
Record walkState := WalkState {
  configPth : string;
  appEnvs : list EnvironmentItemModel;
  world : W
}.

(** The state after the bookkeeping of one step (lines 178-184). *)
Definition stepState (s : walkState) (optionEnvKey selectedValue : string) (w : W)
    : walkState :=
  if decide (optionEnvKey = EmptyString)
  then WalkState selectedValue (appEnvs s) w
  else WalkState (configPth s) (appEnvs s ++ [(optionEnvKey, selectedValue)]) w.

(** walkDepth (lines 172-192) *)
Fixpoint walkDepth (option_ : OptionModel) (s : walkState) : error * walkState :=
  let '((optionEnvKey, selectedValue, err), w) := askForValue option_ (world s) in
  match err with
  | Some e => (Some ("Failed to ask for vale, error: " +:+ e),
               WalkState (configPth s) (appEnvs s) w)
  | None =>
      let s1 := stepState s optionEnvKey selectedValue w in
      (fix find (entries : list (string * OptionModel)) : error * walkState :=
         match entries with
         | [] => (err, s1)                          (* !found: return err *)
         | (k, nestedOptions) :: rest =>
             if decide (k = selectedValue) then walkDepth nestedOptions s1
             else find rest
         end) (ValueMap option_)
  end.

End Walk.

Section Synthesizer.

(** bitriseModels.BitriseDataModel and its AppModel are declared in
    another repository.  [DocRest] and [AppRest] stand for all their
    fields other than App and App.Environments. *)
Variables DocRest AppRest : Type.

Record AppModel := mkAppModel {
  app_rest : AppRest;
  Environments : list EnvironmentItemModel
}.

Record BitriseDataModel := mkBitriseDataModel {
  doc_rest : DocRest;
  App : AppModel
}.

(** The library calls of lines 210-227 and the file system they act on. *)
Variable FS : Type.
Variable yaml_Unmarshal : string → string + BitriseDataModel.
Variable yaml_Marshal : BitriseDataModel → string + string.
Variable output_Print : BitriseDataModel → string → FS → error * FS.
Variable path_Join : string → string → string.

(** config.App.Environments = appEnvs (line 214) *)
Definition setEnvironments (config : BitriseDataModel)
    (envs : list EnvironmentItemModel) : BitriseDataModel :=
  mkBitriseDataModel (doc_rest config) (mkAppModel (app_rest (App config)) envs).

(** Lines 209-229: parse the text, set the environments, write. *)
Definition emitConfig (configStr configPth : string) (envs : list EnvironmentItemModel)
    (platformOutputDir : string) (fs : FS) : error * FS :=
  match yaml_Unmarshal configStr with
  | inl e => (Some ("Failed to unmarshal config, error: " +:+ e), fs)
  | inr config =>
      let config := setEnvironments config envs in
      match yaml_Marshal config with
      | inl e => (Some ("Failed to marshal config, error: " +:+ e), fs)
      | inr _ =>
          let pth := path_Join platformOutputDir configPth in
          match output_Print config pth fs with
          | (Some e, fs') => (Some ("Failed to print result, error: " +:+ e), fs')
          | (None, fs') => (None, fs')
          end
      end
  end.

(** Lines 206-229.  A Go map read of a missing key gives the zero value,
    here the empty string. *)
Definition synthesize (configMap : gmap string string) (configPth : string)
    (envs : list EnvironmentItemModel) (platformOutputDir : string) (fs : FS)
    : error * FS :=
  let configStr := default EmptyString (configMap !! configPth) in
  emitConfig configStr configPth envs platformOutputDir fs.

End Synthesizer.

End Cli.

(** ** Sample inputs for the walk and the synthesizer *)

Module CliSamples.
Import Cli.

(** A strategy that answers from a prepared list; the world counts the
    prompts made so far.  It reports the node's EnvKey as the key. *)
Definition scripted (answers : list string) (o : OptionModel) (asked : nat)
    : (string * string * error) * nat :=
  ((EnvKey o, default EmptyString (answers !! asked), None), S asked).

Definition start : walkState (W := nat) := WalkState EmptyString [] 0.

(** A strategy whose prompt fails at once. *)
Definition failing (o : OptionModel) (asked : nat) : (string * string * error) * nat :=
  ((EmptyString, EmptyString, Some "EOF"), S asked).

(** One value node whose only child sits under "debug". *)
Definition scheme_tree : OptionModel :=
  mkOptionModel "Scheme" "BITRISE_SCHEME"
    [("debug", mkOptionModel EmptyString EmptyString [])].

(** A routing node without env key above a second such node. *)
Definition routing_tree : OptionModel :=
  mkOptionModel "Project type" EmptyString
    [("ios", mkOptionModel "Flavor" EmptyString [])].

(** A document shape with one other field at each level, a file system
    that records what was printed, and a parser that knows two texts.
    yaml.v2 accepts the empty input and leaves the target at its zero
    value. *)
Definition doc : Type := BitriseDataModel string string.
Definition zero_doc : doc :=
  mkBitriseDataModel _ _ EmptyString (mkAppModel _ EmptyString []).
Definition ios_doc : doc :=
  mkBitriseDataModel _ _ "format 5" (mkAppModel _ "app title" [("OLD", "1")]).

Definition parse (text : string) : string + doc :=
  if decide (text = EmptyString) then inr zero_doc
  else if decide (text = "ios-config-text") then inr ios_doc
  else inl "yaml: unmarshal errors".

Definition render (d : doc) : string + string := inr "bytes".

Definition print (d : doc) (pth : string) (fs : list (string * doc))
    : error * list (string * doc) :=
  (None, fs ++ [(pth, d)]).

Definition join (dir name : string) : string := dir +:+ "/" +:+ name.

Definition ios_configs : gmap string string := {[ "ios-config" := "ios-config-text" ]}.

End CliSamples.

(** * Properties *)

(** ** The walk (walkDepth) *)

Section WalkFacts.
Import Cli.
Context {W : Type}.
Variable askForValue : OptionModel → W → (string * string * error) * W.

Lemma walkDepth_unfold (o : OptionModel) (s : walkState) :
  walkDepth askForValue o s =
  let '((optionEnvKey, selectedValue, err), w) := askForValue o (world s) in
  match err with
  | Some e => (Some ("Failed to ask for vale, error: " +:+ e),
               WalkState (configPth s) (appEnvs s) w)
  | None =>
      match lookupValue selectedValue (ValueMap o) with
      | None => (None, stepState s optionEnvKey selectedValue w)
      | Some nestedOptions =>
          walkDepth askForValue nestedOptions (stepState s optionEnvKey selectedValue w)
      end
  end.
Proof.
  destruct o as [t e vm]; simpl.
  destruct (askForValue _ _) as [[[k v] [er|]] w]; [reflexivity|].
  induction vm as [|[k' n] vm IH]; simpl; [reflexivity|].
  destruct (decide (k' = v)); [reflexivity|apply IH].
Qed.

(** C2, as the code has it: a step whose strategy gives a non-empty env
    key and a value without a child ends the walk with the nil error,
    after recording the assignment; no broken-route error is raised. *)
Theorem walkDepth_absent_child_ends_ok (o : OptionModel) (s : walkState)
    (k v : string) (w : W) :
  askForValue o (world s) = ((k, v, None), w) →
  k ≠ EmptyString →
  lookupValue v (ValueMap o) = None →
  walkDepth askForValue o s =
    (None, WalkState (configPth s) (appEnvs s ++ [(k, v)]) w).
Proof.
  intros Hask Hk Hv. rewrite walkDepth_unfold, Hask, Hv.
  unfold stepState. destruct (decide (k = EmptyString)); [contradiction|reflexivity].
Qed.

(** C4, as the code has it: a step whose strategy gives the empty env
    key stores the selected value in configPth and appends no
    assignment; the walk then goes on into the child stored under that
    value when there is one, and ends with the nil error only when there
    is none. *)
Theorem walkDepth_empty_key_step (o : OptionModel) (s : walkState) (v : string) (w : W) :
  askForValue o (world s) = ((EmptyString, v, None), w) →
  walkDepth askForValue o s =
    match lookupValue v (ValueMap o) with
    | None => (None, WalkState v (appEnvs s) w)
    | Some nestedOptions =>
        walkDepth askForValue nestedOptions (WalkState v (appEnvs s) w)
    end.
Proof.
  intros Hask. rewrite walkDepth_unfold, Hask. reflexivity.
Qed.

End WalkFacts.

(** C2 fails as stated: the strategy answers "release" with the key
    BITRISE_SCHEME, the node has no child under "release", and the walk
    returns the nil error. *)
Lemma walkDepth_broken_route_is_success :
  let r := Cli.walkDepth (CliSamples.scripted ["release"]) CliSamples.scheme_tree
             CliSamples.start in
  CliSamples.scripted ["release"] CliSamples.scheme_tree 0
    = (("BITRISE_SCHEME", "release", None), 1)
  ∧ Cli.lookupValue "release" (Cli.ValueMap CliSamples.scheme_tree) = None
  ∧ r.1 = None
  ∧ Cli.appEnvs r.2 = [("BITRISE_SCHEME", "release")].
Proof. vm_compute. repeat split. Qed.

Lemma walkDepth_absent_child_ends_ok_witness :
  Cli.walkDepth (CliSamples.scripted ["release"]) CliSamples.scheme_tree CliSamples.start
  = (None, Cli.WalkState EmptyString [("BITRISE_SCHEME", "release")] 1).
Proof.
  apply (walkDepth_absent_child_ends_ok (CliSamples.scripted ["release"])
           CliSamples.scheme_tree CliSamples.start "BITRISE_SCHEME" "release" 1).
  - reflexivity.
  - discriminate.
  - reflexivity.
Defined.

(** C4 fails as stated: the first answer "ios" comes with the empty key
    and has a child, so the child is visited and the strategy is asked a
    second time; the name finally kept is the second answer. *)
Lemma walkDepth_goes_on_after_empty_key :
  let r := Cli.walkDepth (CliSamples.scripted ["ios"; "free"]) CliSamples.routing_tree
             CliSamples.start in
  CliSamples.scripted ["ios"; "free"] CliSamples.routing_tree 0
    = ((EmptyString, "ios", None), 1)
  ∧ Cli.world r.2 = 2
  ∧ Cli.configPth r.2 = "free".
Proof. vm_compute. repeat split. Qed.

Lemma walkDepth_empty_key_step_witness :
  Cli.walkDepth (CliSamples.scripted ["ios"; "free"]) CliSamples.routing_tree CliSamples.start
  = Cli.walkDepth (CliSamples.scripted ["ios"; "free"])
      (Cli.mkOptionModel "Flavor" EmptyString []) (Cli.WalkState "ios" [] 1).
Proof.
  apply (walkDepth_empty_key_step (CliSamples.scripted ["ios"; "free"])
           CliSamples.routing_tree CliSamples.start "ios" 1).
  reflexivity.
Defined.

(** ** The synthesizer (lines 206-229 of initManualConfig) *)

Section SynthFacts.
Import Cli.
Variables DocRest AppRest FS : Type.
Variable yaml_Unmarshal : string → string + BitriseDataModel DocRest AppRest.
Variable yaml_Marshal : BitriseDataModel DocRest AppRest → string + string.
Variable output_Print : BitriseDataModel DocRest AppRest → string → FS → error * FS.
Variable path_Join : string → string → string.

Local Abbreviation synth := (synthesize DocRest AppRest FS yaml_Unmarshal yaml_Marshal
                           output_Print path_Join).
Local Abbreviation emit := (emitConfig DocRest AppRest FS yaml_Unmarshal yaml_Marshal
                          output_Print path_Join).

(** C3, as the code has it: a name that is not in the map is not
    reported; the lookup gives the empty text and the run goes on exactly
    as for a registered empty document.  When the parser accepts the
    empty text, its document gets the assignments and is printed under
    the missing name. *)
Theorem synthesize_missing_name_uses_empty_text
    (configMap : gmap string string) (name : string)
    (envs : list EnvironmentItemModel) (dir : string) (fs : FS) :
  configMap !! name = None →
  synth configMap name envs dir fs = emit EmptyString name envs dir fs
  ∧ ∀ d bytes fs',
      yaml_Unmarshal EmptyString = inr d →
      yaml_Marshal (setEnvironments _ _ d envs) = inr bytes →
      output_Print (setEnvironments _ _ d envs) (path_Join dir name) fs = (None, fs') →
      synth configMap name envs dir fs = (None, fs').
Proof.
  intros Hnone. unfold synthesize. rewrite Hnone. simpl. split; [reflexivity|].
  intros d bytes fs' Hparse Hrender Hprint.
  unfold emitConfig. rewrite Hparse, Hrender, Hprint. reflexivity.
Qed.

(** C9: when the text registered under the name parses, the document
    handed to the printer carries exactly the accumulated assignments as
    its environments, whatever the parsed document held there, and every
    other field of the parsed document as it was. *)
Theorem synthesize_replaces_environments_only
    (configMap : gmap string string) (name text : string)
    (d : BitriseDataModel DocRest AppRest)
    (envs : list EnvironmentItemModel) (dir : string) (fs : FS) :
  configMap !! name = Some text →
  yaml_Unmarshal text = inr d →
  ∃ d',
    Environments _ (App _ _ d') = envs
    ∧ app_rest _ (App _ _ d') = app_rest _ (App _ _ d)
    ∧ doc_rest _ _ d' = doc_rest _ _ d
    ∧ synth configMap name envs dir fs =
        match yaml_Marshal d' with
        | inl e => (Some ("Failed to marshal config, error: " +:+ e), fs)
        | inr _ =>
            match output_Print d' (path_Join dir name) fs with
            | (Some e, fs') => (Some ("Failed to print result, error: " +:+ e), fs')
            | (None, fs') => (None, fs')
            end
        end.
Proof.
  intros Hname Hparse. exists (setEnvironments _ _ d envs).
  repeat split. unfold synthesize, emitConfig. rewrite Hname. simpl.
  rewrite Hparse. reflexivity.
Qed.

End SynthFacts.

(** C3 fails as stated: "android-config" is not registered, and the run
    ends with the nil error after printing a document under that name. *)
Lemma synthesize_unregistered_name_is_printed :
  CliSamples.ios_configs !! "android-config" = None
  ∧ Cli.synthesize _ _ _ CliSamples.parse CliSamples.render CliSamples.print
      CliSamples.join CliSamples.ios_configs "android-config" [("KEY", "v")] "out" []
    = (None,
       [("out/android-config",
         Cli.setEnvironments _ _ CliSamples.zero_doc [("KEY", "v")])]).
Proof. split; reflexivity. Qed.

Lemma synthesize_missing_name_uses_empty_text_witness :
  Cli.synthesize _ _ _ CliSamples.parse CliSamples.render CliSamples.print
    CliSamples.join CliSamples.ios_configs "android-config" [("KEY", "v")] "out" []
  = Cli.emitConfig _ _ _ CliSamples.parse CliSamples.render CliSamples.print
      CliSamples.join EmptyString "android-config" [("KEY", "v")] "out" [].
Proof.
  apply (synthesize_missing_name_uses_empty_text _ _ _ CliSamples.parse CliSamples.render
           CliSamples.print CliSamples.join CliSamples.ios_configs "android-config"
           [("KEY", "v")] "out" []).
  reflexivity.
Defined.

Lemma synthesize_replaces_environments_only_witness :
  ∃ d' : CliSamples.doc,
    Cli.Environments _ (Cli.App _ _ d') = [("KEY", "v")]
    ∧ Cli.app_rest _ (Cli.App _ _ d') = "app title"
    ∧ Cli.doc_rest _ _ d' = "format 5"
    ∧ Cli.synthesize _ _ _ CliSamples.parse CliSamples.render CliSamples.print
        CliSamples.join CliSamples.ios_configs "ios-config" [("KEY", "v")] "out" []
      = (None, [("out/ios-config", d')]).
Proof.
  apply (synthesize_replaces_environments_only _ _ _ CliSamples.parse CliSamples.render
           CliSamples.print CliSamples.join CliSamples.ios_configs "ios-config"
           "ios-config-text" CliSamples.ios_doc [("KEY", "v")] "out" []).
  - reflexivity.
  - reflexivity.
Defined.

(** ** LastChilds *)

Section TreeFacts.
Import Models.

(** The range order is some enumeration of the map; a reallocating
    append makes room for what is needed. *)
Variable range : gmap string (option loc) → list (string * option loc).
Hypothesis range_perm : ∀ m, range m ≡ₚ map_to_list m.
Variable growcap : nat → nat → nat.
Hypothesis growcap_ge : ∀ old needed, needed ≤ growcap old needed.

Lemma range_lookup (m : gmap string (option loc)) (k : string) (c : option loc) :
  (k, c) ∈ range m ↔ m !! k = Some c.
Proof. rewrite range_perm. apply elem_of_map_to_list. Qed.

Lemma range_empty (m : gmap string (option loc)) : size m = 0 → range m = [].
Proof.
  intros Hs. apply map_size_empty_iff in Hs. subst m.
  apply Permutation_nil_r. rewrite range_perm, map_to_list_empty. reflexivity.
Qed.

Lemma boundedb_S (h : heap) (n : nat) (p : loc) :
  boundedb h (S n) p = true ↔
  ∃ o, nodes h !! p = Some o ∧
       ∀ k c, children o !! k = Some (Some c) → boundedb h n c = true.
Proof.
  simpl. destruct (nodes h !! p) as [o|]; [|split; [discriminate|intros (o & ? & _); discriminate]].
  rewrite forallb_forall. split.
  - intros Hall. exists o. split; [reflexivity|]. intros k c Hkc.
    apply (Hall (k, Some c)). apply list_elem_of_In, elem_of_map_to_list. exact Hkc.
  - intros (o' & [= <-] & Hall) [k [c|]] Hin; [|reflexivity]. simpl.
    apply (Hall k). apply elem_of_map_to_list, list_elem_of_In. exact Hin.
Qed.

Lemma boundedb_alloc (h : heap) (n : nat) (p : loc) :
  boundedb h n p = true → is_Some (nodes h !! p).
Proof.
  destruct n; [discriminate|]. intros (o & Ho & _)%boundedb_S. eauto.
Qed.

Lemma tripsb_Some (h : heap) (c : loc) (co : OptionModel) :
  nodes h !! c = Some co → tripsb h (Some c) = IsConfigOption co || IsEmpty co.
Proof. intros Hc. unfold tripsb. rewrite Hc. reflexivity. Qed.

(** What one scan of the entries adds, given what the recursive call adds. *)
Lemma scan_spec (h : heap) (n : nat) (p : loc)
    (rec : loc → list loc → res (list loc)) :
  (∀ c acc, boundedb h n c = true →
     ∃ l, rec c acc = Ok (acc ++ l) ∧
          ∀ q, q ∈ l ↔ visited range h c q ∧ terminal range h q) →
  ∀ es acc,
    (∀ k c, (k, Some c) ∈ es → boundedb h n c = true) →
    ∃ l, scan rec h p es acc = Ok (acc ++ l) ∧
         ∀ q, q ∈ l ↔
           (∃ pre k c post, es = pre ++ (k, Some c) :: post
               ∧ Forall (λ e : string * option loc, tripsb h e.2 = false) pre
               ∧ tripsb h (Some c) = false
               ∧ visited range h c q ∧ terminal range h q)
           ∨ (q = p ∧ Exists (λ e : string * option loc, tripsb h e.2 = true) es).
Proof.
  intros Hrec es. induction es as [|[k [c|]] es IH]; intros acc Hb.
  - exists []. split; [simpl; by rewrite app_nil_r|].
    intros q. split; [intros Hq; inversion Hq|].
    intros [(pre & k & c & post & Hes & _)|[_ Hex]].
    + by destruct pre.
    + inversion Hex.
  - assert (Hbc : boundedb h n c = true) by (apply (Hb k); left).
    destruct (boundedb_alloc _ _ _ Hbc) as [co Hco].
    assert (Hstop : trip co = true →
      ∃ l, Ok (acc ++ [p]) = Ok (acc ++ l) ∧
        ∀ q, q ∈ l ↔
           (∃ pre k0 c0 post, (k, Some c) :: es = pre ++ (k0, Some c0) :: post
               ∧ Forall (λ e : string * option loc, tripsb h e.2 = false) pre
               ∧ tripsb h (Some c0) = false
               ∧ visited range h c0 q ∧ terminal range h q)
           ∨ (q = p ∧ Exists (λ e : string * option loc, tripsb h e.2 = true)
                        ((k, Some c) :: es))).
    { intros Htrip. exists [p]. split; [reflexivity|]. intros q.
      assert (Ht : tripsb h (Some c) = true) by (by rewrite (tripsb_Some _ _ _ Hco)).
      split.
      - intros ->%list_elem_of_singleton. right. split; [reflexivity|]. by left.
      - intros [(pre & k0 & c0 & post & Hes & Hpre & Hc0 & _)|[-> _]]; [|by left].
        destruct pre as [|e pre]; simpl in Hes.
        + injection Hes as -> -> ->. congruence.
        + injection Hes as <- ->. inversion Hpre; subst. simpl in *. congruence. }
    simpl. unfold load. rewrite Hco. simpl.
    destruct (IsConfigOption co) eqn:Hcfg.
    { apply Hstop. unfold trip. by rewrite Hcfg. }
    destruct (IsEmpty co) eqn:Hemp.
    { apply Hstop. unfold trip. rewrite Hemp. apply orb_true_r. }
    assert (Ht : tripsb h (Some c) = false)
      by (rewrite (tripsb_Some _ _ _ Hco), Hcfg, Hemp; reflexivity).
    destruct (Hrec c acc Hbc) as (l1 & Hl1 & Hq1). rewrite Hl1. simpl.
    destruct (IH (acc ++ l1)) as (l2 & Hl2 & Hq2).
    { intros k0 c0 Hin. apply (Hb k0). by right. }
    exists (l1 ++ l2). split; [by rewrite Hl2, app_assoc|].
    intros q. rewrite elem_of_app, Hq1, Hq2. split.
    + intros [[Hv Hterm]|[(pre & k0 & c0 & post & -> & Hpre & Hc0 & Hv & Hterm)|[-> Hex]]].
      * left. exists [], k, c, es. by repeat split.
      * left. exists ((k, Some c) :: pre), k0, c0, post. repeat split; try done.
        by constructor.
      * right. split; [reflexivity|]. by right.
    + intros [(pre & k0 & c0 & post & Hes & Hpre & Hc0 & Hv & Hterm)|[-> Hex]].
      * destruct pre as [|e pre]; simpl in Hes.
        -- injection Hes as -> -> ->. by left.
        -- injection Hes as <- ->. right. left. exists pre, k0, c0, post.
           inversion Hpre; subst. by repeat split.
      * right. right. split; [reflexivity|]. inversion Hex; subst; [|done].
        simpl in *. congruence.
  - exists [p]. split; [reflexivity|]. intros q. split.
    + intros ->%list_elem_of_singleton. right. split; [reflexivity|]. by left.
    + intros [(pre & k0 & c0 & post & Hes & Hpre & _)|[-> _]]; [|by left].
      destruct pre as [|e pre]; simpl in Hes; [discriminate|].
      injection Hes as <- ->. inversion Hpre; subst. discriminate.
Qed.

Lemma walk_spec (n : nat) :
  ∀ (h : heap) (p : loc) (acc : list loc),
    boundedb h n p = true →
    ∃ l, walk range n h p acc = Ok (acc ++ l) ∧
         ∀ q, q ∈ l ↔ visited range h p q ∧ terminal range h q.
Proof.
  induction n as [|n IH]; intros h p acc Hb; [discriminate|].
  pose proof Hb as (o & Ho & Hkids)%boundedb_S.
  simpl. unfold load. rewrite Ho. simpl.
  destruct (decide (size (children o) = 0)) as [Hz|Hnz].
  - exists [p]. split; [reflexivity|]. intros q. split.
    + intros ->%list_elem_of_singleton. split; [constructor|].
      exists o. split; [done|by left].
    + intros [Hv _]. inversion Hv as [|? o' pre k c post ? Ho' Hr]; subst; [by left|].
      rewrite Ho in Ho'. injection Ho' as <-.
      rewrite (range_empty _ Hz) in Hr. by destruct pre.
  - destruct (scan_spec h n p (walk range n h) (λ c acc', IH h c acc')
                (range (children o)) acc) as (l & Hl & Hq).
    { intros k c Hin. apply (Hkids k). by apply range_lookup. }
    exists l. split; [exact Hl|]. intros q. rewrite Hq. split.
    + intros [(pre & k & c & post & Hes & Hpre & Hc & Hv & Hterm)|[-> Hex]].
      * split; [|done]. by eapply visited_below.
      * split; [constructor|]. exists o. split; [done|by right].
    + intros [Hv Hterm].
      inversion Hv as [|? o' pre k c post ? Ho' Hr Hpre Hc Hv']; subst.
      * right. split; [reflexivity|]. destruct Hterm as (o' & Ho' & [Hz|Hex]).
        -- rewrite Ho in Ho'. injection Ho' as <-. contradiction.
        -- rewrite Ho in Ho'. by injection Ho' as <-.
      * rewrite Ho in Ho'. injection Ho' as <-. left. by exists pre, k, c, post.
Qed.

(** C8: on a finite tree LastChilds returns, and what it returns are
    exactly the visited nodes that are terminal: a node without children,
    or one whose scan meets an entry that is nil, a config node or an
    empty node; the scan of a node descends only into the entries before
    the first such entry, and the node recorded is the scanned node, not
    the entry. *)
Theorem LastChilds_exact (n : nat) (h : heap) (p : loc) :
  boundedb h n p = true →
  ∃ l, LastChilds range n h p = Ok l ∧
       ∀ q, q ∈ l ↔ visited range h p q ∧ terminal range h q.
Proof. intros Hb. apply (walk_spec n h p [] Hb). Qed.


(** ** RemoveConfigs *)

Lemma cleared_refl (h : heap) : cleared h h.
Proof. split; [reflexivity|]. intros x. by left. Qed.

Lemma cleared_trans (h1 h2 h3 : heap) : cleared h1 h2 → cleared h2 h3 → cleared h1 h3.
Proof.
  intros [Ha1 H1] [Ha2 H2]. split; [congruence|]. intros x.
  destruct (H2 x) as [->| ->], (H1 x) as [->| ->]; auto.
  right. destruct (nodes h1 !! x) as [[]|]; reflexivity.
Qed.

Lemma cleared_node (h h' : heap) (x : loc) (o : OptionModel) :
  cleared h h' → nodes h !! x = Some o →
  ∃ o', nodes h' !! x = Some o'
        ∧ ChildOptionMap o' = ChildOptionMap o
        ∧ IsValueOption o' = IsValueOption o
        ∧ (o' = o ∨ o' = set_Config EmptyString o).
Proof.
  intros [_ H] Ho. destruct (H x) as [Hx|Hx]; rewrite Ho in Hx.
  - exists o. auto.
  - exists (set_Config EmptyString o). auto.
Qed.

Lemma cleared_None (h h' : heap) (x : loc) :
  cleared h h' → nodes h !! x = None → nodes h' !! x = None.
Proof. intros [_ H] Ho. destruct (H x) as [Hx|Hx]; by rewrite Ho in Hx. Qed.

Lemma cleared_cfg_empty (h h' : heap) (x : loc) :
  cleared h h' → cfg_empty h x → cfg_empty h' x.
Proof.
  intros Hc (xo & Hx & Hcfg). destruct (cleared_node _ _ _ _ Hc Hx) as (o' & Ho' & _ & _ & [->| ->]).
  - by exists xo.
  - by eexists.
Qed.

Lemma modify_set_Config (h h' : heap) (x : loc) :
  modify x (set_Config EmptyString) h = Ok h' → cleared h h' ∧ cfg_empty h' x.
Proof.
  unfold modify, load. destruct (nodes h !! x) as [o|] eqn:Ho; [|discriminate].
  simpl. intros [= <-]. split.
  - split; [reflexivity|]. intros y. simpl. destruct (decide (x = y)) as [<-|Hne].
    + right. by rewrite lookup_insert_eq, Ho.
    + left. by rewrite lookup_insert_ne.
  - eexists. simpl. by rewrite lookup_insert_eq.
Qed.

Lemma store_same (h : heap) (x : loc) (o : OptionModel) :
  nodes h !! x = Some o → Config o = EmptyString →
  store x (set_Config EmptyString o) h = h.
Proof.
  intros Ho Hc. destruct h as [ns ars]. unfold store. simpl in *. f_equal.
  apply insert_id. rewrite Ho. f_equal. destruct o; simpl in *. by subst.
Qed.

Lemma clearConfigs_cleared (es : list (string * option loc)) :
  ∀ h h', clearConfigs es h = Ok h' → cleared h h'.
Proof.
  induction es as [|[k [c|]] es IH]; simpl; intros h h' Hr.
  - injection Hr as <-. apply cleared_refl.
  - destruct (modify c _ h) as [h1| |] eqn:Hm; simpl in Hr; try discriminate.
    apply modify_set_Config in Hm as [Hm _]. apply IH in Hr.
    by eapply cleared_trans.
  - discriminate.
Qed.

Lemma clearConfigs_nil_panics (es : list (string * option loc)) (k : string) :
  (k, None) ∈ es → ∀ h, clearConfigs es h = Panic.
Proof.
  induction es as [|[k' [c|]] es IH]; intros Hin h; simpl.
  - inversion Hin.
  - unfold modify at 1, load. destruct (nodes h !! c); simpl; [|reflexivity].
    apply IH. apply elem_of_cons in Hin as [Heq|Hin]; [discriminate|done].
  - reflexivity.
Qed.

Lemma clearConfigs_not_out_of_fuel (es : list (string * option loc)) :
  ∀ h, clearConfigs es h ≠ OutOfFuel.
Proof.
  induction es as [|[k' [c|]] es IH]; intros h; simpl; try discriminate.
  unfold modify at 1, load. destruct (nodes h !! c); simpl; [apply IH|discriminate].
Qed.

Lemma removeFrom_nil_panics (l : list loc) (n : loc) (k : string) :
  n ∈ l →
  ∀ h, (∃ o, nodes h !! n = Some o ∧ children o !! k = Some None) →
       removeFrom range l h = Panic.
Proof.
  induction l as [|c l IH]; intros Hin h (o & Ho & Hk); [inversion Hin|].
  simpl. unfold load. destruct (nodes h !! c) as [oc|] eqn:Hoc; simpl; [|reflexivity].
  destruct (clearConfigs (range (children oc)) h) as [h1| |] eqn:Hclr; simpl.
  - destruct (decide (n = c)) as [->|Hne].
    + rewrite Ho in Hoc. injection Hoc as <-.
      exfalso.
      assert (Hp : clearConfigs (range (children o)) h = Panic).
      { apply (clearConfigs_nil_panics _ k). by apply range_lookup. }
      congruence.
    + apply clearConfigs_cleared in Hclr.
      apply IH; [apply elem_of_cons in Hin as [?|?]; [contradiction|done]|].
      destruct (cleared_node _ _ _ _ Hclr Ho) as (o' & Ho' & Hmap & _).
      exists o'. split; [done|]. unfold children. by rewrite Hmap.
  - reflexivity.
  - by apply clearConfigs_not_out_of_fuel in Hclr.
Qed.

(** C10: when a node LastChilds returns holds a nil entry in its
    children map, RemoveConfigs panics: the loop that clears the config
    names writes through that nil pointer. *)
Theorem RemoveConfigs_nil_child_panics (fuel : nat) (h : heap) (p n : loc)
    (l : list loc) (o : OptionModel) (k : string) :
  LastChilds range fuel h p = Ok l →
  n ∈ l →
  nodes h !! n = Some o →
  children o !! k = Some None →
  RemoveConfigs range fuel p h = Panic.
Proof.
  intros Hl Hn Ho Hk. unfold RemoveConfigs. rewrite Hl. simpl.
  apply (removeFrom_nil_panics l n k Hn). eauto.
Qed.

Lemma scan_members (h : heap) (p : loc) (rec : loc → list loc → res (list loc)) :
  is_Some (nodes h !! p) →
  (∀ c acc r, rec c acc = Ok r →
     ∃ l, r = acc ++ l ∧ ∀ q, q ∈ l → is_Some (nodes h !! q)) →
  ∀ es acc r, scan rec h p es acc = Ok r →
    ∃ l, r = acc ++ l ∧ ∀ q, q ∈ l → is_Some (nodes h !! q).
Proof.
  intros Hp Hrec.
  assert (Hstop : ∀ acc r, Ok (acc ++ [p]) = Ok r →
    ∃ l, r = acc ++ l ∧ ∀ q, q ∈ l → is_Some (nodes h !! q)).
  { intros acc r [= <-]. exists [p]. split; [done|]. by intros q ->%list_elem_of_singleton. }
  induction es as [|[k [c|]] es IH]; intros acc r; simpl; [| |by apply Hstop].
  - intros [= <-]. exists []. split; [by rewrite app_nil_r|]. intros q Hq. inversion Hq.
  - unfold load. destruct (nodes h !! c) as [co|]; simpl; [|discriminate].
    destruct (IsConfigOption co); [by apply Hstop|].
    destruct (IsEmpty co); [by apply Hstop|].
    destruct (rec c acc) as [r1| |] eqn:Hr1; simpl; try discriminate.
    intros Hr. destruct (Hrec _ _ _ Hr1) as (l1 & -> & Hl1).
    destruct (IH _ _ Hr) as (l2 & -> & Hl2).
    exists (l1 ++ l2). split; [by rewrite app_assoc|].
    intros q [?|?]%elem_of_app; auto.
Qed.

Lemma walk_members (n : nat) (h : heap) :
  ∀ p acc r, walk range n h p acc = Ok r →
    ∃ l, r = acc ++ l ∧ ∀ q, q ∈ l → is_Some (nodes h !! q).
Proof.
  induction n as [|n IH]; intros p acc r; simpl; [discriminate|].
  unfold load. destruct (nodes h !! p) as [o|] eqn:Ho; simpl; [|discriminate].
  destruct (decide (size (children o) = 0)).
  - intros [= <-]. exists [p]. split; [done|].
    intros q ->%list_elem_of_singleton. by rewrite Ho.
  - apply scan_members; [by rewrite Ho|]. apply IH.
Qed.

Lemma LastChilds_members (n : nat) (h : heap) (p : loc) (l : list loc) :
  LastChilds range n h p = Ok l → ∀ q, q ∈ l → is_Some (nodes h !! q).
Proof.
  intros (l' & -> & Hl')%walk_members. exact Hl'.
Qed.

Lemma clearConfigs_ok (es : list (string * option loc)) :
  ∀ h, (∀ k c, (k, c) ∈ es → ∃ x, c = Some x ∧ is_Some (nodes h !! x)) →
       ∃ h', clearConfigs es h = Ok h' ∧ cleared h h'
             ∧ ∀ k x, (k, Some x) ∈ es → cfg_empty h' x.
Proof.
  induction es as [|[k c] es IH]; intros h Hes; simpl.
  - exists h. split; [done|]. split; [apply cleared_refl|]. intros k x Hin. inversion Hin.
  - destruct (Hes k c) as (x & -> & [xo Hxo]); [by left|].
    destruct (modify x (set_Config EmptyString) h) as [h1| |] eqn:Hm;
      [|unfold modify, load in Hm; rewrite Hxo in Hm; discriminate..].
    simpl. apply modify_set_Config in Hm as [Hc1 Hx1].
    destruct (IH h1) as (h' & Hr & Hc' & Hall).
    { intros k' c' Hin. destruct (Hes k' c') as (x' & -> & [xo' Hxo']); [by right|].
      exists x'. split; [done|].
      destruct (cleared_node _ _ _ _ Hc1 Hxo') as (o' & -> & _). eauto. }
    exists h'. split; [done|]. split; [by eapply cleared_trans|].
    intros k' x' [[= -> ->]|Hin]%elem_of_cons; [|by eapply Hall].
    by eapply cleared_cfg_empty.
Qed.

Lemma removeFrom_ok (h : heap) (l : list loc) :
  (∀ n o k c, n ∈ l → nodes h !! n = Some o → children o !! k = Some c →
     ∃ x, c = Some x ∧ is_Some (nodes h !! x)) →
  (∀ n, n ∈ l → is_Some (nodes h !! n)) →
  ∀ hc, cleared h hc →
    ∃ h1, removeFrom range l hc = Ok h1 ∧ cleared hc h1
          ∧ ∀ n o k x, n ∈ l → nodes h !! n = Some o →
              children o !! k = Some (Some x) → cfg_empty h1 x.
Proof.
  induction l as [|n l IH]; intros Hkids Halloc hc Hc; simpl.
  - exists hc. split; [done|]. split; [apply cleared_refl|].
    intros n o k x Hin. inversion Hin.
  - destruct (Halloc n) as [o Ho]; [by left|].
    destruct (cleared_node _ _ _ _ Hc Ho) as (o' & Ho' & Hmap & _).
    unfold load. rewrite Ho'. simpl.
    assert (Hch : children o' = children o) by (unfold children; by rewrite Hmap).
    rewrite Hch.
    destruct (clearConfigs_ok (range (children o)) hc) as (h1 & Hr & Hc1 & Hall).
    { intros k c Hin%range_lookup.
      destruct (Hkids n o k c) as (x & -> & [xo Hxo]); [by left|done..|].
      exists x. split; [done|].
      destruct (cleared_node _ _ _ _ Hc Hxo) as (xo' & -> & _). eauto. }
    rewrite Hr. simpl.
    destruct (IH) with (hc := h1) as (h2 & Hr2 & Hc2 & Hall2).
    { intros n' o0 k c Hin. apply Hkids. by right. }
    { intros n' Hin. apply Halloc. by right. }
    { by eapply cleared_trans. }
    exists h2. split; [done|]. split; [by eapply cleared_trans|].
    intros n' o0 k x [->|Hin]%elem_of_cons Ho0 Hk; [|by eapply Hall2].
    rewrite Ho in Ho0. injection Ho0 as <-.
    eapply cleared_cfg_empty; [done|]. eapply Hall. by apply range_lookup.
Qed.

Lemma exclusiveb_node (h : heap) (x : loc) (o : OptionModel) :
  exclusiveb h = true → nodes h !! x = Some o →
  IsValueOption o && IsConfigOption o = false.
Proof.
  unfold exclusiveb. rewrite forallb_forall. intros Hall Ho.
  specialize (Hall (x, o)). simpl in Hall. apply negb_true_iff, Hall.
  by apply list_elem_of_In, elem_of_map_to_list.
Qed.

Lemma trip_set_Config (o : OptionModel) :
  IsValueOption o && IsConfigOption o = false →
  trip (set_Config EmptyString o) = trip o.
Proof.
  unfold trip, IsEmpty, IsConfigOption, IsValueOption. simpl.
  destruct (String.eqb (Title o) EmptyString), (String.eqb (Config o) EmptyString);
    simpl; congruence.
Qed.

Lemma scan_cons_Some (h : heap) (p : loc) (rec : loc → list loc → res (list loc))
    (k : string) (c : loc) (es : list (string * option loc)) (acc : list loc) :
  scan rec h p ((k, Some c) :: es) acc =
  let* co := load h c in
  if trip co then Ok (acc ++ [p])
  else let* acc' := rec c acc in scan rec h p es acc'.
Proof.
  simpl. destruct (load h c) as [co| |]; simpl; try reflexivity.
  unfold trip. by destruct (IsConfigOption co), (IsEmpty co).
Qed.

Lemma load_cleared_trip (h h1 : heap) (c : loc) :
  cleared h h1 → exclusiveb h = true →
  match load h1 c, load h c with
  | Ok co', Ok co => trip co' = trip co ∧ children co' = children co
  | Panic, Panic => True
  | _, _ => False
  end.
Proof.
  intros Hc Hex. unfold load. destruct (nodes h !! c) as [co|] eqn:Hco.
  - destruct (cleared_node _ _ _ _ Hc Hco) as (co' & -> & Hmap & _ & [->| ->]).
    + done.
    + split; [|done]. apply trip_set_Config. by eapply exclusiveb_node.
  - by rewrite (cleared_None _ _ _ Hc Hco).
Qed.

Lemma scan_cleared (h h1 : heap) (p : loc) (rec1 rec : loc → list loc → res (list loc)) :
  cleared h h1 → exclusiveb h = true →
  (∀ c acc, rec1 c acc = rec c acc) →
  ∀ es acc, scan rec1 h1 p es acc = scan rec h p es acc.
Proof.
  intros Hc Hex Hrec. induction es as [|[k [c|]] es IH]; intros acc; try reflexivity.
  rewrite !scan_cons_Some. pose proof (load_cleared_trip h h1 c Hc Hex) as Hl.
  destruct (load h1 c) as [co'| |], (load h c) as [co| |]; try done. simpl.
  destruct Hl as [-> _]. destruct (trip co); [done|].
  rewrite Hrec. destruct (rec c acc); simpl; [apply IH|done..].
Qed.

Lemma walk_cleared (h h1 : heap) :
  cleared h h1 → exclusiveb h = true →
  ∀ n p acc, walk range n h1 p acc = walk range n h p acc.
Proof.
  intros Hc Hex. induction n as [|n IH]; intros p acc; [reflexivity|]. simpl.
  pose proof (load_cleared_trip h h1 p Hc Hex) as Hl.
  destruct (load h1 p) as [o'| |], (load h p) as [o| |]; try done. simpl.
  destruct Hl as [_ ->]. destruct (decide _); [done|].
  by apply scan_cleared.
Qed.

Lemma clearConfigs_noop (es : list (string * option loc)) (h : heap) :
  (∀ k c, (k, c) ∈ es → ∃ x, c = Some x ∧ cfg_empty h x) →
  clearConfigs es h = Ok h.
Proof.
  induction es as [|[k c] es IH]; intros Hes; simpl; [done|].
  destruct (Hes k c) as (x & -> & xo & Hxo & Hcfg); [by left|].
  unfold modify, load. rewrite Hxo. simpl. rewrite (store_same _ _ _ Hxo Hcfg).
  apply IH. intros k' c' Hin. apply (Hes k'). by right.
Qed.

Lemma removeFrom_noop (l : list loc) (h : heap) :
  (∀ n, n ∈ l → ∃ o, nodes h !! n = Some o ∧
     ∀ k c, children o !! k = Some c → ∃ x, c = Some x ∧ cfg_empty h x) →
  removeFrom range l h = Ok h.
Proof.
  induction l as [|n l IH]; intros Hl; simpl; [done|].
  destruct (Hl n) as (o & Ho & Hkids); [by left|].
  unfold load. rewrite Ho. simpl. rewrite clearConfigs_noop.
  - simpl. apply IH. intros n' Hin. apply Hl. by right.
  - intros k c Hin%range_lookup. by apply (Hkids k).
Qed.

(** C6, as the code has it: when every entry under the nodes LastChilds
    returns is a non-nil pointer, RemoveConfigs returns and every such
    entry then has the empty config name; and if, in addition, no node
    of the tree has both a title and a config name, running it again on
    the result (children scanned in the same order) changes nothing. *)
Theorem RemoveConfigs_clears_and_repeats (fuel : nat) (h : heap) (p : loc) (l : list loc) :
  LastChilds range fuel h p = Ok l →
  (∀ n o k c, n ∈ l → nodes h !! n = Some o → children o !! k = Some c →
     ∃ x, c = Some x ∧ is_Some (nodes h !! x)) →
  ∃ h1, RemoveConfigs range fuel p h = Ok h1
        ∧ (∀ n o k x, n ∈ l → nodes h !! n = Some o →
             children o !! k = Some (Some x) →
             ∃ xo, nodes h1 !! x = Some xo ∧ Config xo = EmptyString)
        ∧ (exclusiveb h = true → RemoveConfigs range fuel p h1 = Ok h1).
Proof.
  intros Hl Hkids. pose proof (LastChilds_members _ _ _ _ Hl) as Halloc.
  destruct (removeFrom_ok h l Hkids Halloc h (cleared_refl h)) as (h1 & Hr & Hc & Hall).
  exists h1. unfold RemoveConfigs. rewrite Hl. simpl. split; [done|]. split; [done|].
  intros Hex. unfold LastChilds. rewrite (walk_cleared h h1 Hc Hex).
  fold (LastChilds range fuel h p). rewrite Hl. simpl.
  apply removeFrom_noop. intros n Hn. destruct (Halloc n Hn) as [o Ho].
  destruct (cleared_node _ _ _ _ Hc Ho) as (o' & Ho' & Hmap & _).
  exists o'. split; [done|]. intros k c Hk.
  assert (Hk' : children o !! k = Some c) by (unfold children in *; by rewrite <- Hmap).
  destruct (Hkids n o k c Hn Ho Hk') as (x & -> & _).
  exists x. split; [done|]. by eapply Hall.
Qed.

(** ** AddOption and AttachToLastChilds *)

Lemma go_append_store (sl : slice) (v : string) (x : loc) (o : OptionModel) (h : heap) :
  go_append growcap sl v (store x o h) =
  ((go_append growcap sl v h).1, store x o (go_append growcap sl v h).2).
Proof.
  unfold go_append, store, slice_elems. simpl.
  destruct (s_arr sl); [destruct (decide _)|]; reflexivity.
Qed.

Lemma go_append_nodes (sl : slice) (v : string) (h : heap) :
  nodes (go_append growcap sl v h).2 = nodes h.
Proof.
  unfold go_append. destruct (s_arr sl); [destruct (decide _)|]; reflexivity.
Qed.

Lemma AddOption_Some_spec (c s : loc) (v : string) (h : heap) (o : OptionModel)
    (m : gmap string (option loc)) :
  nodes h !! c = Some o → ChildOptionMap o = Some m → is_Some (nodes h !! s) →
  ∃ h', AddOption growcap c v (Some s) h = Ok h'
    ∧ arrays h' = arrays (go_append growcap (Components o) v h).2
    ∧ (∀ x, x ≠ c → x ≠ s → nodes h' !! x = nodes h !! x)
    ∧ (∃ oc', nodes h' !! c = Some oc' ∧ Config oc' = Config o
              ∧ ChildOptionMap oc' = Some (<[v := Some s]> m)
              ∧ (c ≠ s → Components oc' = Components o ∧ Head oc' = Head o))
    ∧ (c ≠ s → ∀ os, nodes h !! s = Some os →
         ∃ os', nodes h' !! s = Some os' ∧ Config os' = Config os
                ∧ ChildOptionMap os' = ChildOptionMap os
                ∧ Components os' = (go_append growcap (Components o) v h).1
                ∧ Head os' = Some (default c (Head o))).
Proof.
  intros Ho Hm [os Hos]. unfold AddOption, load. rewrite Ho. simpl. rewrite Hm.
  simpl. rewrite lookup_insert_eq. simpl.
  rewrite go_append_store. simpl.
  destruct (go_append growcap (Components o) v h) as [sl h2] eqn:Hga. simpl.
  assert (Hn2 : nodes h2 = nodes h).
  { pose proof (go_append_nodes (Components o) v h) as Hn. by rewrite Hga in Hn. }
  unfold modify, load, store. simpl. rewrite Hn2.
  destruct (decide (c = s)) as [<-|Hne].
  - repeat (rewrite lookup_insert_eq; simpl).
    destruct (Head o) as [hd|]; simpl;
      (eexists; split; [reflexivity|]; simpl; split; [reflexivity|]; split;
       [intros x Hx _; by rewrite !lookup_insert_ne|]; split;
       [eexists; split; [by rewrite lookup_insert_eq|]; simpl; by repeat split|done]).
  - rewrite (lookup_insert_ne _ c s) by done. rewrite Hos. simpl.
    rewrite (lookup_insert_ne _ s c) by done. rewrite lookup_insert_eq. simpl.
    assert (Hfin : ∀ hd, ∃ h', Ok (Heap (<[s := set_Head (Some hd) (set_Components sl os)]>
        (<[s := set_Components sl os]>
           (<[c := set_ChildOptionMap (Some (<[v:=Some s]> m)) o]> (nodes h)))) (arrays h2)) = Ok h'
      ∧ arrays h' = arrays h2
      ∧ (∀ x, x ≠ c → x ≠ s → nodes h' !! x = nodes h !! x)
      ∧ (∃ oc', nodes h' !! c = Some oc' ∧ Config oc' = Config o
              ∧ ChildOptionMap oc' = Some (<[v := Some s]> m)
              ∧ (c ≠ s → Components oc' = Components o ∧ Head oc' = Head o))
      ∧ (c ≠ s → ∀ os0, Some os = Some os0 →
         ∃ os', nodes h' !! s = Some os' ∧ Config os' = Config os0
                ∧ ChildOptionMap os' = ChildOptionMap os0
                ∧ Components os' = sl
                ∧ Head os' = Some hd)).
    { intros hd. eexists. split; [reflexivity|]. simpl. split; [reflexivity|]. split.
      - intros x Hxc Hxs. by rewrite !lookup_insert_ne.
      - split.
        + eexists. split; [by rewrite !(lookup_insert_ne _ s c), lookup_insert_eq|].
          simpl. by repeat split.
        + intros _ os0 [= <-]. eexists. split; [by rewrite lookup_insert_eq|].
          simpl. by repeat split. }
    destruct (Head o) as [hd|]; simpl; rewrite lookup_insert_eq; simpl; apply Hfin.
Qed.

Lemma slice_wfb_true (h : heap) (sl : slice) :
  slice_wfb h sl = true ↔
  match s_arr sl with
  | None => s_len sl = 0 ∧ s_cap sl = 0
  | Some a => ∃ arr, arrays h !! a = Some arr ∧ s_len sl ≤ s_cap sl ∧ s_cap sl = length arr
  end.
Proof.
  unfold slice_wfb. destruct (s_arr sl) as [a|].
  - destruct (arrays h !! a) as [arr|].
    + rewrite andb_true_iff, !bool_decide_eq_true. split.
      * intros [? ?]. by exists arr.
      * by intros (arr' & [= <-] & ? & ?).
    + split; [discriminate|]. by intros (arr & ? & _).
  - by rewrite andb_true_iff, !bool_decide_eq_true.
Qed.

Lemma heap_wfb_true (h : heap) :
  heap_wfb h = true ↔ ∀ x o, nodes h !! x = Some o → slice_wfb h (Components o) = true.
Proof.
  unfold heap_wfb. rewrite forallb_forall. split.
  - intros Hall x o Ho. apply (Hall (x, o)). by apply list_elem_of_In, elem_of_map_to_list.
  - intros Hall [x o] Hin. apply (Hall x). by apply elem_of_map_to_list, list_elem_of_In.
Qed.

Lemma slice_wfb_arrays (h h' : heap) (sl : slice) :
  arrays h' = arrays h → slice_wfb h' sl = slice_wfb h sl.
Proof. intros Ha. unfold slice_wfb. by rewrite Ha. Qed.

Lemma slice_elems_arrays (h h' : heap) (sl : slice) :
  arrays h' = arrays h → slice_elems h' sl = slice_elems h sl.
Proof. intros Ha. unfold slice_elems. by rewrite Ha. Qed.

(** append shows the old elements followed by the new one, and leaves
    what the old header shows as it was. *)
Lemma go_append_elems (h h2 : heap) (sl sl1 : slice) (v : string) :
  slice_wfb h sl = true →
  go_append growcap sl v h = (sl1, h2) →
  slice_elems h2 sl1 = slice_elems h sl ++ [v]
  ∧ slice_elems h2 sl = slice_elems h sl.
Proof.
  intros Hwf%slice_wfb_true Hga. unfold go_append in Hga. unfold slice_elems at 2 4.
  unfold slice_elems in Hga.
  destruct (s_arr sl) as [a|] eqn:Ha.
  - destruct Hwf as (arr & Harr & Hle & Hcap). rewrite Harr in *. simpl in *.
    destruct (decide (s_len sl < s_cap sl)) as [Hlt|Hge];
      injection Hga as <- <-; unfold slice_elems; simpl; rewrite Ha.
    + rewrite !lookup_insert_eq. simpl. split.
      * rewrite (take_S_r _ _ v) by (apply list_lookup_insert_eq; lia).
        by rewrite take_insert_ge by lia.
      * by rewrite take_insert_ge by lia.
    + rewrite lookup_insert_eq. simpl. split.
      * rewrite (cons_middle v), app_assoc, take_app_le
          by (rewrite length_app, length_take; simpl; lia).
        apply take_ge. rewrite length_app, length_take. simpl. lia.
      * rewrite lookup_insert_ne; [by rewrite Harr|].
        intros Heq. pose proof (is_fresh (dom (arrays h))) as Hf.
        rewrite Heq in Hf. apply Hf, elem_of_dom. eauto.
  - injection Hga as <- <-. unfold slice_elems. simpl. rewrite Ha.
    by rewrite lookup_insert_eq.
Qed.

Lemma fresh_array_ne (h : heap) (a : loc) (arr : list string) :
  arrays h !! a = Some arr → fresh (dom (arrays h)) ≠ a.
Proof.
  intros Harr Heq. pose proof (is_fresh (dom (arrays h))) as Hf.
  rewrite Heq in Hf. apply Hf, elem_of_dom. eauto.
Qed.

Lemma slice_wfb_fresh (h : heap) (ns : gmap loc OptionModel) (arr : list string) (s0 : slice) :
  slice_wfb h s0 = true →
  slice_wfb (Heap ns (<[fresh (dom (arrays h)) := arr]> (arrays h))) s0 = true.
Proof.
  intros Hs0%slice_wfb_true. apply slice_wfb_true. simpl.
  destruct (s_arr s0) as [a0|]; [|done]. destruct Hs0 as (arr0 & Harr0 & ? & ?).
  rewrite lookup_insert_ne; [eauto|]. by eapply fresh_array_ne.
Qed.

Lemma go_append_wf (h h2 : heap) (sl sl1 : slice) (v : string) :
  slice_wfb h sl = true →
  go_append growcap sl v h = (sl1, h2) →
  slice_wfb h2 sl1 = true
  ∧ ∀ s0, slice_wfb h s0 = true → slice_wfb h2 s0 = true.
Proof.
  intros Hwf%slice_wfb_true Hga. unfold go_append in Hga.
  destruct (s_arr sl) as [a|] eqn:Ha.
  - destruct Hwf as (arr & Harr & Hle & Hcap). rewrite Harr in *. simpl in *.
    destruct (decide (s_len sl < s_cap sl)) as [Hlt|Hge]; injection Hga as <- <-.
    + split.
      * apply slice_wfb_true. simpl. rewrite lookup_insert_eq.
        eexists. split; [done|]. rewrite length_insert. lia.
      * intros s0 Hs0%slice_wfb_true. apply slice_wfb_true. simpl.
        destruct (s_arr s0) as [a0|]; [|done]. destruct Hs0 as (arr0 & Harr0 & ? & ?).
        destruct (decide (a = a0)) as [<-|Hne].
        -- rewrite lookup_insert_eq. eexists. split; [done|]. rewrite length_insert.
           rewrite Harr in Harr0. injection Harr0 as <-. lia.
        -- rewrite lookup_insert_ne by done. eauto.
    + split; [|intros s0; apply slice_wfb_fresh].
      apply slice_wfb_true. simpl. rewrite lookup_insert_eq.
      eexists. split; [done|]. pose proof (growcap_ge (s_cap sl) (S (s_len sl))).
      split; [lia|]. unfold slice_elems. rewrite Ha, Harr. simpl.
      rewrite length_app, length_take. simpl. rewrite length_replicate. lia.
  - injection Hga as <- <-. split; [|intros s0; apply slice_wfb_fresh].
    apply slice_wfb_true. simpl. rewrite lookup_insert_eq.
    eexists. split; [done|]. pose proof (growcap_ge 0 1).
    split; [lia|]. simpl. rewrite length_replicate. lia.
Qed.

Lemma attached_refl (s : loc) (h : heap) : attached s h h.
Proof.
  split; [done|]. intros x o Ho. exists o. repeat split; auto.
Qed.

Lemma attached_trans (s : loc) (h1 h2 h3 : heap) :
  attached s h1 h2 → attached s h2 h3 → attached s h1 h3.
Proof.
  intros [Hn1 H1] [Hn2 H2]. split; [auto|]. intros x o Ho.
  destruct (H1 x o Ho) as (o2 & Ho2 & Hc2 & Hm2 & Hk2 & Hof2).
  destruct (H2 x o2 Ho2) as (o3 & Ho3 & Hc3 & Hm3 & Hk3 & Hof3).
  exists o3. split; [done|]. split; [congruence|]. split; [by rewrite Hm3|].
  split; [|intros w; by rewrite Hof3].
  intros w. destruct (Hk3 w) as [->| ->]; auto.
Qed.

Lemma attached_alloc (s : loc) (h h' : heap) (x : loc) :
  attached s h h' → is_Some (nodes h !! x) → is_Some (nodes h' !! x).
Proof. intros [_ H] [o Ho]. destruct (H x o Ho) as (o' & -> & _). eauto. Qed.

Lemma offers_insert (o o' : OptionModel) (m : gmap string (option loc)) (v : string)
    (c : option loc) :
  ChildOptionMap o = Some m → ChildOptionMap o' = Some (<[v := c]> m) →
  Config o' = Config o → offers o v →
  ∀ w, offers o' w ↔ offers o w.
Proof.
  intros Hm Hm' Hc Hv w. unfold offers, children in *. rewrite Hc, Hm' in *.
  rewrite Hm in *. simpl in *.
  destruct (negb (String.eqb (Config o) EmptyString)); [done|].
  destruct (decide (v = w)) as [<-|Hne].
  - rewrite lookup_insert_eq. split; eauto.
  - by rewrite lookup_insert_ne.
Qed.

(** One call of AddOption with a non-nil argument, on a receiver whose
    map is not nil. *)
Lemma AddOption_attached (c s : loc) (v : string) (h : heap) (o : OptionModel) :
  nodes h !! c = Some o → is_Some (ChildOptionMap o) → is_Some (nodes h !! s) →
  offers o v →
  ∃ h', AddOption growcap c v (Some s) h = Ok h'
    ∧ attached s h h'
    ∧ (∃ oc', nodes h' !! c = Some oc' ∧ children oc' !! v = Some (Some s))
    ∧ (heap_wfb h = true → c ≠ s → heap_wfb h' = true ∧ placed h' s c v).
Proof.
  intros Ho [m Hm] Hs Hv.
  destruct (AddOption_Some_spec c s v h o m Ho Hm Hs)
    as (h' & Hadd & Harr & Hother & (oc' & Hoc' & Hcfg & Hmap & Hsame) & Hsub).
  exists h'. split; [done|]. split; [|split].
  - split.
    + intros x Hx. rewrite Hother; [done|congruence|]. destruct Hs. congruence.
    + intros x ox Hox. destruct (decide (x = c)) as [->|Hxc].
      * rewrite Ho in Hox. injection Hox as <-. exists oc'.
        split; [done|]. split; [done|]. split; [by rewrite Hmap, Hm|]. split.
        -- intros w. unfold children. rewrite Hmap, Hm. simpl.
           destruct (decide (v = w)) as [<-|Hne];
             [right; by rewrite lookup_insert_eq|left; by rewrite lookup_insert_ne].
        -- by eapply offers_insert.
      * destruct (decide (x = s)) as [->|Hxs].
        -- destruct (Hsub (not_eq_sym Hxc) ox Hox) as (os' & Hos' & Hc' & Hm' & _).
           exists os'. split; [done|]. split; [done|]. split; [by rewrite Hm'|].
           unfold offers, children. rewrite Hm', Hc'. auto.
        -- exists ox. rewrite Hother by done. repeat split; auto.
  - exists oc'. split; [done|]. unfold children. rewrite Hmap. simpl.
    by rewrite lookup_insert_eq.
  - intros Hwf Hne. destruct Hs as [os Hos].
    destruct (Hsame Hne) as [Hcomp Hhead].
    destruct (Hsub Hne os Hos) as (os' & Hos' & _ & _ & Hcomp' & Hhead').
    destruct (go_append growcap (Components o) v h) as [sl h2] eqn:Hga. simpl in *.
    pose proof (proj1 (heap_wfb_true h) Hwf) as Hall.
    destruct (go_append_wf h h2 _ _ v (Hall c o Ho) Hga) as [Hwf1 Hwf0].
    destruct (go_append_elems h h2 _ _ v (Hall c o Ho) Hga) as [Hel1 Hel0].
    split.
    + apply heap_wfb_true. intros x ox Hox.
      rewrite (slice_wfb_arrays h2 h') by done.
      destruct (decide (x = c)) as [->|Hxc].
      { rewrite Hoc' in Hox. injection Hox as <-. rewrite Hcomp. eauto. }
      destruct (decide (x = s)) as [->|Hxs].
      { rewrite Hos' in Hox. injection Hox as <-. by rewrite Hcomp'. }
      rewrite Hother in Hox by done. eauto.
    + exists oc', os'. split; [done|]. split; [done|].
      rewrite !(slice_elems_arrays h2 h') by done.
      rewrite Hcomp, Hcomp', Hhead, Hel1, Hel0. done.
Qed.

Lemma GetValues_spec (h : heap) (c : loc) (o : OptionModel) :
  nodes h !! c = Some o →
  ∃ vs, GetValues range h c = Ok vs ∧ ∀ v, v ∈ vs ↔ offers o v.
Proof.
  intros Ho. unfold GetValues, load, offers. rewrite Ho. simpl.
  destruct (negb (String.eqb (Config o) EmptyString)).
  - eexists. split; [done|]. intros v. by rewrite list_elem_of_singleton.
  - eexists. split; [done|]. intros v. rewrite list_elem_of_fmap. split.
    + intros ([k e] & -> & Hin%range_lookup). eauto.
    + intros [e He]. exists (v, e). split; [done|]. by apply range_lookup.
Qed.

Lemma attachValues_spec (c s : loc) (vs : list string) :
  ∀ h o, nodes h !! c = Some o → is_Some (ChildOptionMap o) → is_Some (nodes h !! s) →
    (∀ v, v ∈ vs → offers o v) →
    ∃ h', attachValues growcap c vs (Some s) h = Ok h'
      ∧ attached s h h'
      ∧ (∀ v, v ∈ vs → ∃ oc', nodes h' !! c = Some oc' ∧ children oc' !! v = Some (Some s))
      ∧ (heap_wfb h = true → c ≠ s →
           heap_wfb h' = true ∧ (h' = h ∨ ∃ v, v ∈ vs ∧ placed h' s c v)).
Proof.
  induction vs as [|v vs IH]; intros h o Ho Hm Hs Hvs; simpl.
  - exists h. split; [done|]. split; [apply attached_refl|]. split; [|auto].
    intros v Hin. inversion Hin.
  - destruct (AddOption_attached c s v h o Ho Hm Hs) as (h1 & -> & Hatt1 & Hent1 & Hpl1).
    { apply Hvs. by left. }
    simpl. pose proof Hatt1 as [_ Hnode]. destruct (Hnode c o Ho) as (o1 & Ho1 & _ & Hm1 & _ & Hof1).
    destruct (IH h1 o1 Ho1) as (h' & Hr & Hatt & Hent & Hpl).
    { by apply Hm1. }
    { by eapply attached_alloc. }
    { intros w Hw. apply Hof1, Hvs. by right. }
    exists h'. split; [done|]. split; [by eapply attached_trans|]. split.
    + intros w [->|Hw]%elem_of_cons; [|by apply Hent].
      destruct Hent1 as (oc1 & Hoc1 & Hk1). destruct Hatt as [_ Hnode'].
      destruct (Hnode' c oc1 Hoc1) as (oc' & Hoc' & _ & _ & Hk' & _).
      exists oc'. split; [done|]. destruct (Hk' v) as [->| ->]; done.
    + intros Hwf Hne. destruct (Hpl1 Hwf Hne) as [Hwf1 Hplaced1].
      destruct (Hpl Hwf1 Hne) as [Hwf' [->|(w & Hw & Hplaced)]].
      * split; [done|]. right. exists v. split; [by left|done].
      * split; [done|]. right. exists w. split; [by right|done].
Qed.

Lemma attachTo_spec (s : loc) (l : list loc) :
  ∀ h, (∀ c, c ∈ l → ∃ o, nodes h !! c = Some o ∧ is_Some (ChildOptionMap o)) →
    is_Some (nodes h !! s) →
    ∃ h', attachTo growcap range l (Some s) h = Ok h'
      ∧ attached s h h'
      ∧ (∀ c o v, c ∈ l → nodes h !! c = Some o → offers o v →
           ∃ oc', nodes h' !! c = Some oc' ∧ children oc' !! v = Some (Some s))
      ∧ (heap_wfb h = true → s ∉ l →
           heap_wfb h' = true
           ∧ (h' = h ∨ ∃ c o v, c ∈ l ∧ nodes h !! c = Some o ∧ offers o v
                                  ∧ placed h' s c v)).
Proof.
  induction l as [|c l IH]; intros h Hl Hs; simpl.
  - exists h. split; [done|]. split; [apply attached_refl|]. split; [|auto].
    intros c o v Hin. inversion Hin.
  - destruct (Hl c) as (o & Ho & Hm); [by left|].
    destruct (GetValues_spec h c o Ho) as (vs & -> & Hvs). simpl.
    destruct (attachValues_spec c s vs h o Ho Hm Hs) as (h1 & -> & Hatt1 & Hent1 & Hpl1).
    { intros v. apply Hvs. }
    simpl. pose proof Hatt1 as [_ Hnode1].
    destruct (IH h1) as (h' & Hr & Hatt & Hent & Hpl).
    { intros c' Hc'. destruct (Hl c') as (o' & Ho' & Hm'); [by right|].
      destruct (Hnode1 c' o' Ho') as (o1 & Ho1 & _ & Hm1 & _). exists o1.
      split; [done|]. by apply Hm1. }
    { by eapply attached_alloc. }
    exists h'. split; [done|]. split; [by eapply attached_trans|]. split.
    + intros c' o' v [->|Hc']%elem_of_cons Ho' Hv.
      * rewrite Ho in Ho'. injection Ho' as <-.
        destruct (Hent1 v) as (oc1 & Hoc1 & Hk1); [by apply Hvs|].
        destruct Hatt as [_ Hnode']. destruct (Hnode' c oc1 Hoc1) as (oc' & Hoc' & _ & _ & Hk' & _).
        exists oc'. split; [done|]. destruct (Hk' v) as [->| ->]; done.
      * destruct (Hnode1 c' o' Ho') as (o1 & Ho1 & _ & _ & _ & Hof1).
        apply (Hent c' o1 v Hc' Ho1). by apply Hof1.
    + intros Hwf Hnin. apply not_elem_of_cons in Hnin as [Hne Hnin].
      destruct (Hpl1 Hwf (not_eq_sym Hne)) as [Hwf1 Hplaced1].
      destruct (Hpl Hwf1 Hnin) as [Hwf' Hplaced]. split; [done|].
      destruct Hplaced as [->|(c' & o1 & v & Hc' & Ho1 & Hv & Hplaced)].
      * destruct Hplaced1 as [->|(v & Hv & Hplaced1)]; [by left|].
        right. exists c, o, v. split; [by left|]. split; [done|]. split; [by apply Hvs|done].
      * right. destruct (Hl c') as (o' & Ho' & _); [by right|].
        destruct (Hnode1 c' o' Ho') as (o1' & Ho1' & _ & _ & _ & Hof1).
        rewrite Ho1 in Ho1'. injection Ho1' as <-.
        exists c', o', v. split; [by right|]. split; [done|]. split; [by apply Hof1|done].
Qed.

(** C1, as the code has it: AttachToLastChilds copies nothing.  When
    the nodes LastChilds returns have non-nil maps it returns, the set
    of allocated nodes is the same as before, and every value offered at
    every such node now leads to the one node [s] that was passed in, so
    all attached entries are the same object.  The path and head of
    [s] can therefore describe one position only: unless nothing was
    attached, they are those of [s] stored under some offered value of
    some such node (here [s] is not itself one of these nodes). *)
Theorem AttachToLastChilds_shares_argument (fuel : nat) (h : heap) (p s : loc)
    (l : list loc) :
  LastChilds range fuel h p = Ok l →
  (∀ c o, c ∈ l → nodes h !! c = Some o → is_Some (ChildOptionMap o)) →
  is_Some (nodes h !! s) →
  ∃ h', AttachToLastChilds growcap range fuel p (Some s) h = Ok h'
    ∧ (∀ x, is_Some (nodes h' !! x) ↔ is_Some (nodes h !! x))
    ∧ (∀ c o v, c ∈ l → nodes h !! c = Some o → offers o v →
         ∃ oc', nodes h' !! c = Some oc' ∧ children oc' !! v = Some (Some s))
    ∧ (heap_wfb h = true → s ∉ l →
         h' = h ∨ ∃ c o v, c ∈ l ∧ nodes h !! c = Some o ∧ offers o v
                            ∧ placed h' s c v).
Proof.
  intros Hl Hmaps Hs. pose proof (LastChilds_members _ _ _ _ Hl) as Halloc.
  destruct (attachTo_spec s l h) as (h' & Hr & Hatt & Hent & Hpl); [|done|].
  { intros c Hc. destruct (Halloc c Hc) as [o Ho]. exists o. split; [done|]. by eapply Hmaps. }
  exists h'. unfold AttachToLastChilds. rewrite Hl. simpl. split; [done|]. split; [|split].
  - intros x. split; [|by apply (attached_alloc s)].
    destruct Hatt as [Hnone _]. destruct (nodes h !! x) eqn:Hx; [eauto|].
    rewrite (Hnone x Hx). by intros [? ?].
  - done.
  - intros Hwf Hnin. by destruct (Hpl Hwf Hnin).
Qed.

End TreeFacts.

(** ** Copy *)

Section CopyFacts.
Import Models.




Lemma jval_nested_ind (P : jval → Prop) :
  (∀ t e ty c, P (JObj t e ty None c)) →
  (∀ t e ty l c,
     Forall (λ kc : string * option jval, ∀ j', kc.2 = Some j' → P j') l →
     P (JObj t e ty (Some l) c)) →
  ∀ j, P j.
Proof.
  intros Hnone Hsome. fix IH 1. intros [t e ty [l|] c]; [|apply Hnone].
  apply Hsome. induction l as [|[k [j'|]] l IHl].
  - apply Forall_nil_2.
  - apply Forall_cons_2; [|exact IHl]. simpl. intros j'' Heq.
    injection Heq as <-. apply IH.
  - apply Forall_cons_2; [|exact IHl]. simpl. intros j'' Heq. discriminate Heq.
Qed.

(** The enumeration order of a finite map depends on its keys only. *)
Lemma map_to_list_keys_unit {A} (m : gmap string A) :
  (map_to_list m).*1 = (map_to_list ((λ _, tt) <$> m)).*1.
Proof.
  rewrite map_to_list_fmap, <- list_fmap_compose.
  apply list_fmap_ext. by intros i [k a] _.
Qed.

Lemma map_to_list_keys {A B} (m1 : gmap string A) (m2 : gmap string B) :
  (∀ k, is_Some (m1 !! k) ↔ is_Some (m2 !! k)) →
  (map_to_list m1).*1 = (map_to_list m2).*1.
Proof.
  intros Hdom. rewrite (map_to_list_keys_unit m1), (map_to_list_keys_unit m2).
  do 2 f_equal. apply map_eq. intros k. rewrite !lookup_fmap.
  specialize (Hdom k). destruct (m1 !! k), (m2 !! k); simpl; try done.
  - destruct Hdom as [H _]. destruct H as [? [=]]. eauto.
  - destruct Hdom as [_ H]. destruct H as [? [=]]. eauto.
Qed.




Lemma mapM_res_Ok {A B} (f : A → res B) (l : list A) (bs : list B) :
  mapM_res f l = Ok bs ↔ Forall2 (λ a b, f a = Ok b) l bs.
Proof.
  revert bs. induction l as [|a l IH]; intros bs; simpl.
  - split; [intros [= <-]; constructor|by intros ->%Forall2_nil_inv_l].
  - split.
    + destruct (f a) as [b| |] eqn:Hfa; simpl; try done.
      destruct (mapM_res f l) as [bs'| |]; simpl; try done.
      intros [= <-]. constructor; [done|by apply IH].
    + intros (b & bs' & Hfa & Hrest & ->)%Forall2_cons_inv_l.
      rewrite Hfa. simpl. apply IH in Hrest. by rewrite Hrest.
Qed.


Lemma deepValue_mono (n : nat) :
  ∀ n' h h' o j, n ≤ n' →
    (∀ x ox, nodes h !! x = Some ox → nodes h' !! x = Some ox) →
    deepValue n h o = Ok j → deepValue n' h' o = Ok j.
Proof.
  induction n as [|n IH]; intros n' h h' o j Hle Hext; [done|].
  destruct n' as [|n']; [lia|]. simpl.
  destruct (ChildOptionMap o) as [m|]; simpl; [|done].
  destruct (mapM_res _ (map_to_list m)) as [l| |] eqn:Hl; simpl; try done.
  intros [= <-]. apply mapM_res_Ok in Hl.
  assert (Hl' : mapM_res (encodeEntry (deepValue n' h') h') (map_to_list m) = Ok l).
  { apply mapM_res_Ok. eapply Forall2_impl; [exact Hl|].
    intros [k [c|]] b; unfold encodeEntry, load; simpl; [|done].
    destruct (nodes h !! c) as [co|] eqn:Hco; simpl; [|done].
    rewrite (Hext _ _ Hco). simpl.
    destruct (deepValue n h co) as [jc| |] eqn:Hjc; simpl; try done.
    by rewrite (IH n' h h' co jc ltac:(lia) Hext Hjc). }
  by rewrite Hl'.
Qed.


Lemma extends_refl (h : heap) : extends h h.
Proof. split; [done|]. split; [done|]. intros x ox Hx Hn. congruence. Qed.

Lemma extends_trans (h1 h2 h3 : heap) : extends h1 h2 → extends h2 h3 → extends h1 h3.
Proof.
  intros (Ha1 & He1 & Hn1) (Ha2 & He2 & Hn2). split; [congruence|]. split; [auto|].
  intros x ox Hx3 Hx1. destruct (nodes h2 !! x) as [ox2|] eqn:Hx2.
  - pose proof (He2 _ _ Hx2) as Hx3'. rewrite Hx3 in Hx3'. injection Hx3' as ->.
    by apply (Hn1 x).
  - destruct (Hn2 x ox Hx3 Hx2) as (Hc & Hh & Hk). split; [done|]. split; [done|].
    intros k c Hkc. specialize (Hk k c Hkc).
    destruct (nodes h1 !! c) as [oc|] eqn:Hc1; [|done].
    apply He1 in Hc1. congruence.
Qed.

Lemma extends_fresh (h h' : heap) (x : loc) :
  extends h h' → nodes h' !! x = None → nodes h !! x = None.
Proof.
  intros (_ & He & _) Hx. destruct (nodes h !! x) eqn:Hhx; [|done].
  apply He in Hhx. congruence.
Qed.

Lemma alloc_spec (h h1 : heap) (o : OptionModel) (q : loc) (h2 : heap) :
  alloc o h1 = (q, h2) →
  extends h h1 → Components o = nil_slice → Head o = None →
  (∀ k c, children o !! k = Some (Some c) → nodes h !! c = None) →
  extends h h2 ∧ nodes h1 !! q = None ∧ nodes h2 !! q = Some o
  ∧ ∀ x ox, nodes h1 !! x = Some ox → nodes h2 !! x = Some ox.
Proof.
  unfold alloc, store. intros [= <- <-] Hext Hc Hh Hk. simpl.
  assert (Hq : nodes h1 !! fresh (dom (nodes h1)) = None).
  { apply not_elem_of_dom, is_fresh. }
  assert (Hkeep : ∀ x ox, nodes h1 !! x = Some ox →
            <[fresh (dom (nodes h1)) := o]> (nodes h1) !! x = Some ox).
  { intros x ox Hx. rewrite lookup_insert_ne; [done|]. intros <-. congruence. }
  split; [|by rewrite lookup_insert_eq].
  destruct Hext as (Ha & He & Hn). split; [done|]. split; [by auto|]. simpl.
  intros x ox Hx Hx0. destruct (decide (x = fresh (dom (nodes h1)))) as [->|Hne].
  - rewrite lookup_insert_eq in Hx. injection Hx as <-. done.
  - rewrite lookup_insert_ne in Hx by done. by apply (Hn x).
Qed.

Lemma encodeEntry_content (n : nat) (h : heap)
    (kv : string * option loc) (kc : string * option jval) :
  encodeEntry (deepValue n h) h kv = Ok kc ↔ kv.1 = kc.1 ∧ entry_content n h kv.2 kc.2.
Proof.
  unfold encodeEntry, load, entry_content. destruct kv as [k v], kc as [k' w]. simpl.
  destruct v as [c|].
  - destruct (nodes h !! c) as [co|] eqn:Hco; simpl.
    + destruct (deepValue n h co) as [j'| |] eqn:Hj'; simpl.
      * split.
        -- intros [= <- <-]. split; [done|]. by exists co.
        -- destruct w as [j|]; [|by intros [_ []]].
           intros [-> (co' & Hco' & Hj)]. congruence.
      * split; [done|]. destruct w as [j|]; [|by intros [_ []]].
        intros [_ (co' & Hco' & Hj)]. congruence.
      * split; [done|]. destruct w as [j|]; [|by intros [_ []]].
        intros [_ (co' & Hco' & Hj)]. congruence.
    + split; [done|]. destruct w as [j|]; [|by intros [_ []]].
      intros [_ (co' & Hco' & Hj)]. congruence.
  - split.
    + by intros [= <- <-].
    + destruct w as [j|]; [by intros [_ []]|]. by intros [-> _].
Qed.

Lemma entry_content_mono (n n' : nat) (h h' : heap) (v : option loc) (w : option jval) :
  n ≤ n' → (∀ x ox, nodes h !! x = Some ox → nodes h' !! x = Some ox) →
  entry_content n h v w → entry_content n' h' v w.
Proof.
  intros Hle Hext. destruct v as [c|], w as [j|]; simpl; try done.
  intros (co & Hco & Hj). exists co. split; [by apply Hext|].
  by eapply deepValue_mono.
Qed.

(** Two lists with the same keys in the same places, whose values at one
    key are related. *)
Lemma keyed_Forall2 {A B} (Q : A → B → Prop)
    (l1 : list (string * A)) (l2 : list (string * B)) :
  l1.*1 = l2.*1 →
  (∀ k a b, (k, a) ∈ l1 → (k, b) ∈ l2 → Q a b) →
  Forall2 (λ x y, x.1 = y.1 ∧ Q x.2 y.2) l1 l2.
Proof.
  revert l2. induction l1 as [|[k a] l1 IH]; intros [|[k' b] l2] Hk HQ;
    simpl in *; try done.
  injection Hk as <- Hk. constructor.
  - split; [done|]. apply (HQ k); by left.
  - apply IH; [done|]. intros k0 a0 b0 Ha Hb. apply (HQ k0); by right.
Qed.

Lemma list_to_map_related {A B} (Q : A → B → Prop)
    (l1 : list (string * A)) (l2 : list (string * B)) :
  Forall2 (λ x y, x.1 = y.1 ∧ Q x.2 y.2) l1 l2 →
  ∀ k, option_Forall2 Q ((list_to_map l1 : gmap string A) !! k)
                        ((list_to_map l2 : gmap string B) !! k).
Proof.
  induction 1 as [|[k1 a] [k2 b] l1 l2 [Hk HQ] _ IH]; intros k; simpl in *.
  - rewrite !lookup_empty. constructor.
  - subst k2. destruct (decide (k1 = k)) as [->|Hne].
    + rewrite !lookup_insert_eq. by constructor.
    + rewrite !lookup_insert_ne by done. apply IH.
Qed.

Lemma map_to_list_related {A B} (Q : A → B → Prop)
    (m1 : gmap string A) (m2 : gmap string B) :
  (∀ k, option_Forall2 Q (m1 !! k) (m2 !! k)) →
  Forall2 (λ x y, x.1 = y.1 ∧ Q x.2 y.2) (map_to_list m1) (map_to_list m2).
Proof.
  intros HQ. apply keyed_Forall2.
  - apply map_to_list_keys. intros k. specialize (HQ k).
    inversion HQ; split; intros [? ?]; eauto; congruence.
  - intros k a b Ha%elem_of_map_to_list Hb%elem_of_map_to_list.
    specialize (HQ k). rewrite Ha, Hb in HQ. by inversion HQ.
Qed.

Lemma jdepth_members (t e ty : string) (l : list (string * option jval)) (c : string)
    (n : nat) :
  jdepth (JObj t e ty (Some l) c) ≤ S n
  ↔ Forall (λ kc : string * option jval, ∀ j', kc.2 = Some j' → jdepth j' ≤ n) l.
Proof.
  simpl. rewrite <- Nat.succ_le_mono. induction l as [|[k [j'|]] l IH]; simpl.
  - split; [constructor|lia].
  - rewrite Forall_cons, <- IH. simpl. split.
    + intros Hmax. split; [intros ? [= <-]; lia|lia].
    + intros [Hj Hl]. specialize (Hj j' eq_refl). lia.
  - rewrite Forall_cons, <- IH. simpl. split; [by split|by intros [_ ?]].
Qed.

Lemma encodeJSON_Some (t e ty : string) (l : list (string * option jval)) (c : string) :
  l ≠ [] →
  encodeJSON (JObj t e ty (Some l) c)
  = JObj (utf8_coerce t) (utf8_coerce e) (utf8_coerce ty)
      (Some (merge_sort key_le (encodeMember encodeJSON <$> l)).*2) (utf8_coerce c).
Proof. by destruct l. Qed.

Lemma encodeJSON_members (l : list (string * option jval)) (y : string * option jval) :
  y ∈ (merge_sort key_le (encodeMember encodeJSON <$> l)).*2
  ↔ ∃ kc, kc ∈ l ∧ y = (encodeMember encodeJSON kc).2.
Proof.
  rewrite list_elem_of_fmap. setoid_rewrite merge_sort_Permutation.
  setoid_rewrite list_elem_of_fmap. split.
  - intros (z & -> & kc & -> & Hin). by exists kc.
  - intros (kc & Hin & ->). exists (encodeMember encodeJSON kc). split; [done|]. by exists kc.
Qed.









Lemma members_spec (l : list (string * option jval)) :
  Forall (λ kc : string * option jval, ∀ j', kc.2 = Some j' → decodes j') l →
  ∀ h vs h', members json_Unmarshal l h = (vs, h') →
    extends h h'
    ∧ (∀ k c, (k, Some c) ∈ vs → nodes h !! c = None)
    ∧ ∀ n, Forall (λ kc : string * option jval,
                     ∀ j', kc.2 = Some j' → jdepth j' ≤ n) l →
           Forall2 (λ kv kc, kv.1 = kc.1 ∧ entry_content n h' kv.2 kc.2)
             vs (decodeMember decoded <$> l).
Proof.
  induction 1 as [|[k [j'|]] l Hx _ IH]; intros h vs h'; simpl.
  - intros [= <- <-]. split; [apply extends_refl|]. split.
    + intros k c Hin. inversion Hin.
    + intros n _. constructor.
  - destruct (json_Unmarshal j' h) as [c h1] eqn:Hc.
    destruct (members json_Unmarshal l h1) as [vs' h2] eqn:Hm.
    intros [= <- <-].
    destruct (Hx j' eq_refl h c h1 Hc) as (He1 & Hc0 & oc & Hoc & Hdv).
    destruct (IH h1 vs' h2 Hm) as (He2 & Hnew & Hall).
    split; [by eapply extends_trans|]. split.
    + intros k0 c0 [[= -> ->]|Hin]%elem_of_cons; [done|].
      eapply extends_fresh; [exact He1|]. by eapply Hnew.
    + intros n [Hn Hrest]%Forall_cons.
      constructor; [|by apply Hall].
      split; [done|]. simpl. destruct He2 as (_ & He2 & _).
      exists oc. split; [by apply He2|].
      apply (deepValue_mono n n h1 h2 oc); [lia|done|].
      apply Hdv. by apply Hn.
  - destruct (members json_Unmarshal l h) as [vs' h2] eqn:Hm.
    intros [= <- <-]. destruct (IH h vs' h2 Hm) as (He2 & Hnew & Hall).
    split; [done|]. split.
    + intros k0 c0 [[=]|Hin]%elem_of_cons. by eapply Hnew.
    + intros n [_ Hrest]%Forall_cons.
      constructor; [done|by apply Hall].
Qed.

(** Decoding a document, whatever its keys, allocates new nodes only and
    gives a node with the content [decoded] tells. *)
Lemma json_Unmarshal_decodes (j : jval) : decodes j.
Proof.
  induction j as [t e ty c|t e ty l c IH] using jval_nested_ind; intros h q h'.
  - simpl. intros Halloc.
    destruct (alloc_spec h h _ _ _ Halloc (extends_refl h)) as (He & Hq & Hoq & _);
      [done..|].
    split; [done|]. split; [done|]. eexists. split; [done|].
    intros [|n] Hn; [simpl in Hn; lia|done].
  - simpl. destruct (members json_Unmarshal l h) as [vs h1] eqn:Hm. intros Halloc.
    destruct (members_spec l IH h vs h1 Hm) as (He1 & Hnew & Hf2).
    destruct (alloc_spec h h1 _ _ _ Halloc He1) as (He & Hq & Hoq & Hkeep); [done..| |].
    { intros k c0 Hk. simpl in Hk. apply (Hnew k).
      by apply elem_of_reverse, elem_of_list_to_map_2. }
    split; [done|]. split; [exact (extends_fresh _ _ _ He1 Hq)|]. eexists. split; [done|].
    intros [|n] Hn; [simpl in Hn; lia|].
    apply (jdepth_members t e ty l c n) in Hn. specialize (Hf2 n Hn).
    cbn [deepValue ChildOptionMap Title EnvKey Type_ Config].
    assert (Hl : mapM_res (encodeEntry (deepValue n h') h')
                   (map_to_list (list_to_map (reverse vs) : gmap string (option loc)))
                 = Ok (map_to_list (list_to_map (reverse (decodeMember decoded <$> l))
                                      : gmap string (option jval)))).
    { apply mapM_res_Ok. apply Forall2_reverse in Hf2.
      eapply Forall2_impl;
        [exact (map_to_list_related _ _ _ (list_to_map_related _ _ _ Hf2))|].
      intros kv kc [Hk Hcont]. apply encodeEntry_content. split; [done|].
      by apply (entry_content_mono n n h1 h'). }
    by rewrite Hl.
Qed.




End CopyFacts.

(** ** The properties at the sample trees *)

Lemma range_canonical_perm (m : gmap string (option positive)) :
  Models.range_canonical m ≡ₚ map_to_list m.
Proof. reflexivity. Qed.

Lemma gc_growcap_ge (old needed : nat) : needed ≤ Models.gc_growcap old needed.
Proof. unfold Models.gc_growcap. destruct (decide _); lia. Qed.

(** C5 fails on the code for node 5 of [deep_tree]: it was added under
    "x" of node 4, and Parent reports the label "y" of the sibling that
    was added after it.  The path of node 4 has length 3 and capacity 4,
    so both calls of append write their label into the same array cell. *)
Lemma Parent_reports_label_of_later_sibling :
  (Models.children <$> Models.nodes Models.deep_tree !! 4%positive)
    = Some {[ "x" := Some 5%positive; "y" := Some 6%positive ]}
  ∧ (Models.Components <$> Models.nodes Models.deep_tree !! 4%positive)
    = Some (Models.Slice (Some 3%positive) 3 4)
  ∧ Models.Parent Models.deep_tree 6%positive = Ok (Some 4%positive, "y", true)
  ∧ Models.Parent Models.deep_tree 5%positive = Ok (Some 4%positive, "y", true).
Proof. vm_compute. repeat split. Qed.

(** C1 fails as stated: after attaching node 4 below the root of
    [two_configs], both entries of the root hold node 4 itself, no node
    was allocated, and the path of node 4 names one of the two values
    only. *)
Lemma AttachToLastChilds_aliases_argument :
  let h' := Models.from_ok
              (Models.AttachToLastChilds Models.gc_growcap Models.range_canonical 2
                 1%positive (Some 4%positive) Models.two_configs) in
  Models.LastChilds Models.range_canonical 2 Models.two_configs 1%positive = Ok [1%positive]
  ∧ Models.GetValues Models.range_canonical Models.two_configs 1%positive = Ok ["a"; "b"]
  ∧ (Models.children <$> Models.nodes h' !! 1%positive)
    = Some {[ "a" := Some 4%positive; "b" := Some 4%positive ]}
  ∧ size (Models.nodes h') = size (Models.nodes Models.two_configs)
  ∧ (Models.slice_elems h' ∘ Models.Components <$> Models.nodes h' !! 4%positive)
    = Some ["b"].
Proof. vm_compute. repeat split. Qed.

(** C6 fails as stated: in [titled_config] the only node LastChilds
    returns is the root, whose one child is not nil.  The first run
    clears the config name of node 2 and leaves that of node 3; the
    second run clears that of node 3. *)
Lemma RemoveConfigs_second_run_changes_tree :
  let h1 := Models.from_ok
              (Models.RemoveConfigs Models.range_canonical 3 1%positive Models.titled_config) in
  let h2 := Models.from_ok (Models.RemoveConfigs Models.range_canonical 3 1%positive h1) in
  Models.LastChilds Models.range_canonical 3 Models.titled_config 1%positive = Ok [1%positive]
  ∧ (Models.children <$> Models.nodes Models.titled_config !! 1%positive)
    = Some {[ "a" := Some 2%positive ]}
  ∧ (Models.Config <$> Models.nodes h1 !! 2%positive) = Some EmptyString
  ∧ (Models.Config <$> Models.nodes h1 !! 3%positive) = Some "d"
  ∧ Models.LastChilds Models.range_canonical 3 h1 1%positive = Ok [2%positive]
  ∧ (Models.Config <$> Models.nodes h2 !! 3%positive) = Some EmptyString.
Proof. vm_compute. repeat split. Qed.

Lemma LastChilds_exact_witness :
  ∃ l, Models.LastChilds Models.range_canonical 2 Models.two_configs 1%positive = Ok l
       ∧ ∀ q, q ∈ l ↔ Models.visited Models.range_canonical Models.two_configs 1%positive q
                       ∧ Models.terminal Models.range_canonical Models.two_configs q.
Proof.
  apply (LastChilds_exact Models.range_canonical range_canonical_perm 2
           Models.two_configs 1%positive).
  vm_compute. reflexivity.
Defined.

Lemma RemoveConfigs_nil_child_panics_witness :
  Models.RemoveConfigs Models.range_canonical 1 1%positive Models.nil_child = Panic.
Proof.
  eapply (RemoveConfigs_nil_child_panics Models.range_canonical range_canonical_perm 1
            Models.nil_child 1%positive 1%positive [1%positive] _ "a").
  - vm_compute. reflexivity.
  - apply list_elem_of_here.
  - vm_compute. reflexivity.
  - vm_compute. reflexivity.
Defined.

Lemma two_configs_root_entries (n : positive) (o : Models.OptionModel)
    (k : string) (c : option positive) :
  n ∈ [1%positive] → Models.nodes Models.two_configs !! n = Some o →
  Models.children o !! k = Some c →
  ∃ x, c = Some x ∧ is_Some (Models.nodes Models.two_configs !! x).
Proof.
  intros Hn Ho Hk. apply list_elem_of_singleton in Hn. subst n.
  vm_compute in Ho. injection Ho as <-.
  apply elem_of_map_to_list in Hk. vm_compute in Hk.
  apply elem_of_cons in Hk as [Hk|Hk]; [|apply elem_of_cons in Hk as [Hk|Hk]].
  - injection Hk as _ ->. exists 2%positive. split; [reflexivity|]. vm_compute. eauto.
  - injection Hk as _ ->. exists 3%positive. split; [reflexivity|]. vm_compute. eauto.
  - inversion Hk.
Defined.

Lemma RemoveConfigs_clears_and_repeats_witness :
  ∃ h1, Models.RemoveConfigs Models.range_canonical 2 1%positive Models.two_configs = Ok h1
        ∧ (∀ n o k x, n ∈ [1%positive] → Models.nodes Models.two_configs !! n = Some o →
             Models.children o !! k = Some (Some x) →
             ∃ xo, Models.nodes h1 !! x = Some xo ∧ Models.Config xo = EmptyString)
        ∧ (Models.exclusiveb Models.two_configs = true →
           Models.RemoveConfigs Models.range_canonical 2 1%positive h1 = Ok h1).
Proof.
  apply (RemoveConfigs_clears_and_repeats Models.range_canonical range_canonical_perm 2
           Models.two_configs 1%positive [1%positive]).
  - vm_compute. reflexivity.
  - apply two_configs_root_entries.
Defined.

Lemma two_configs_root_map (c : positive) (o : Models.OptionModel) :
  c ∈ [1%positive] → Models.nodes Models.two_configs !! c = Some o →
  is_Some (Models.ChildOptionMap o).
Proof.
  intros Hc Ho. apply list_elem_of_singleton in Hc. subst c.
  vm_compute in Ho. injection Ho as <-. eauto.
Defined.

Lemma AttachToLastChilds_shares_argument_witness :
  ∃ h', Models.AttachToLastChilds Models.gc_growcap Models.range_canonical 2 1%positive
          (Some 4%positive) Models.two_configs = Ok h'
    ∧ (∀ x, is_Some (Models.nodes h' !! x) ↔ is_Some (Models.nodes Models.two_configs !! x))
    ∧ (∀ c o v, c ∈ [1%positive] → Models.nodes Models.two_configs !! c = Some o →
         Models.offers o v →
         ∃ oc', Models.nodes h' !! c = Some oc'
                ∧ Models.children oc' !! v = Some (Some 4%positive))
    ∧ (Models.heap_wfb Models.two_configs = true → 4%positive ∉ [1%positive] →
         h' = Models.two_configs
         ∨ ∃ c o v, c ∈ [1%positive] ∧ Models.nodes Models.two_configs !! c = Some o
                    ∧ Models.offers o v ∧ Models.placed h' 4%positive c v).
Proof.
  apply (AttachToLastChilds_shares_argument Models.range_canonical range_canonical_perm
           Models.gc_growcap gc_growcap_ge 2 Models.two_configs 1%positive 4%positive
           [1%positive]).
  - vm_compute. reflexivity.
  - apply two_configs_root_map.
  - vm_compute. eauto.
Defined.


(** A node that contains itself cannot be encoded, and Copy returns nil. *)
Lemma Copy_of_cycle_is_nil :
  Models.Copy Models.self_loop 1%positive = Ok (None, Models.self_loop).
Proof. vm_compute. reflexivity. Qed.

(** Bytes that are no UTF-8 do not survive Copy.  The root of
    [invalid_utf8] has the byte FF as title, and one entry under each of
    the keys FE and FF; its copy has U+FFFD as title and one entry, under
    the key U+FFFD: the copy of the config node, which the encoder wrote
    last. *)
Lemma Copy_replaces_invalid_bytes :
  (Models.Title <$> Models.nodes Models.invalid_utf8 !! 1%positive)
    = Some (Models.byte_string 255)
  ∧ (Models.children <$> Models.nodes Models.invalid_utf8 !! 1%positive)
    = Some {[ Models.byte_string 254 := None; Models.byte_string 255 := Some 2%positive ]}
  ∧ ∃ q h1 c,
      Models.Copy Models.invalid_utf8 1%positive = Ok (Some q, h1)
      ∧ (Models.Title <$> Models.nodes h1 !! q) = Some (Models.replacement EmptyString)
      ∧ (Models.children <$> Models.nodes h1 !! q)
        = Some {[ Models.replacement EmptyString := Some c ]}
      ∧ (Models.Config <$> Models.nodes h1 !! c) = Some "c".
Proof.
  split; [vm_compute; reflexivity|]. split; [vm_compute; reflexivity|].
  vm_compute. eexists _, _, _. repeat split.
Qed.

(** Parent of a node without head, such as a root, finds nothing. *)
Lemma Parent_of_root (h : Models.heap) (p : positive) (o : Models.OptionModel) :
  Models.nodes h !! p = Some o → Models.Head o = None →
  Models.Parent h p = Ok (None, EmptyString, false).
Proof.
  intros Ho Hh. unfold Models.Parent, Models.load. rewrite Ho. simpl. by rewrite Hh.
Qed.

(** ** Further properties of the tree operations *)

Section MoreTreeFacts.
Import Models.

Variable range : gmap string (option loc) → list (string * option loc).
Hypothesis range_perm : ∀ m, range m ≡ₚ map_to_list m.
Variable growcap : nat → nat → nat.
Hypothesis growcap_ge : ∀ old needed, needed ≤ growcap old needed.

(** AddConfig attaches exactly as AddOption does. *)
Theorem AddConfig_as_AddOption (c : loc) (v : string) (n : option loc) (h : heap) :
  AddConfig growcap c v n h = AddOption growcap c v n h.
Proof. reflexivity. Qed.

(** A node added under a key is what Child finds under that key, whatever
    the key held before; the other keys of the receiver and the nodes
    other than the receiver and the added node are as they were. *)
Theorem AddOption_then_Child (c s : loc) (v : string) (h : heap) (o : OptionModel) :
  nodes h !! c = Some o → is_Some (ChildOptionMap o) → is_Some (nodes h !! s) →
  ∃ h', AddOption growcap c v (Some s) h = Ok h'
    ∧ Child h' c [v] = Ok (Some s, true)
    ∧ (∀ w, w ≠ v → ∃ oc', nodes h' !! c = Some oc'
                            ∧ children oc' !! w = children o !! w)
    ∧ (∀ x, x ≠ c → x ≠ s → nodes h' !! x = nodes h !! x).
Proof.
  intros Ho [m Hm] Hs.
  destruct (AddOption_Some_spec growcap c s v h o m Ho Hm Hs)
    as (h' & Hadd & _ & Hother & (oc' & Hoc' & _ & Hmap & _) & _).
  exists h'. split; [done|]. split; [|split; [|done]].
  - simpl. unfold load. rewrite Hoc'. simpl. unfold children. rewrite Hmap. simpl.
    by rewrite lookup_insert_eq.
  - intros w Hw. exists oc'. split; [done|]. unfold children. rewrite Hmap, Hm. simpl.
    by rewrite lookup_insert_ne.
Qed.

(** Adding the nil pointer under a key: Child then finds nothing under
    that key, and the receiver satisfies the terminal test of LastChilds;
    no other node and no path is touched. *)
Theorem AddOption_nil_entry (c : loc) (v : string) (h : heap) (o : OptionModel) :
  nodes h !! c = Some o → is_Some (ChildOptionMap o) →
  ∃ h', AddOption growcap c v None h = Ok h'
    ∧ Child h' c [v] = Ok (None, false)
    ∧ terminal range h' c
    ∧ arrays h' = arrays h
    ∧ (∀ x, x ≠ c → nodes h' !! x = nodes h !! x).
Proof.
  intros Ho [m Hm]. unfold AddOption, load. rewrite Ho. simpl. rewrite Hm.
  eexists. split; [reflexivity|]. split; [|split; [|split; [done|]]].
  - simpl. unfold load. simpl. rewrite lookup_insert_eq. simpl.
    unfold children. simpl. by rewrite lookup_insert_eq.
  - eexists. split; [simpl; by rewrite lookup_insert_eq|]. right.
    apply Exists_exists. exists (v, None). split; [|done].
    apply (range_lookup range range_perm). unfold children. simpl.
    by rewrite lookup_insert_eq.
  - intros x Hx. simpl. by rewrite lookup_insert_ne.
Qed.

(** Child along a concatenated path is Child along the first part
    followed by Child along the second. *)
Theorem Child_app (h : heap) (xs ys : list string) :
  ∀ p, Child h p (xs ++ ys) =
       let* r := Child h p xs in
       match r with
       | (Some q, true) => Child h q ys
       | _ => Ok (None, false)
       end.
Proof.
  induction xs as [|x xs IH]; intros p; simpl; [done|].
  destruct (load h p) as [o| |]; simpl; try done.
  destruct (children o !! x) as [[c|]|]; simpl; [apply IH|done..].
Qed.

(** GetValues of a node with a config name is that name alone, whatever
    its children; otherwise it lists every key of the children map once. *)
Theorem GetValues_keys (h : heap) (c : loc) (o : OptionModel) :
  nodes h !! c = Some o →
  if String.eqb (Config o) EmptyString
  then ∃ vs, GetValues range h c = Ok vs
             ∧ vs ≡ₚ (map_to_list (children o)).*1
             ∧ NoDup vs ∧ length vs = size (children o)
  else GetValues range h c = Ok [Config o].
Proof.
  intros Ho. unfold GetValues, load. rewrite Ho. simpl.
  destruct (String.eqb (Config o) EmptyString); simpl; [|done].
  eexists. split; [done|].
  assert (Hp : (range (children o)).*1 ≡ₚ (map_to_list (children o)).*1)
    by (by rewrite range_perm).
  split; [done|]. split.
  - rewrite Hp. apply NoDup_fst_map_to_list.
  - rewrite Hp, length_fmap. apply length_map_to_list.
Qed.

Lemma slice_elems_length (h : heap) (sl : slice) :
  slice_wfb h sl = true → length (slice_elems h sl) = s_len sl.
Proof.
  intros Hwf%slice_wfb_true. unfold slice_elems. destruct (s_arr sl) as [a|].
  - destruct Hwf as (arr & -> & ? & ?). simpl. rewrite length_take. lia.
  - by destruct Hwf as [-> _].
Qed.

(** Right after a node is added under a key, Parent of that node returns
    the receiver, the key and true, provided the receiver is found from
    its own head along its own path (for a root: from itself along the
    empty path). *)
Theorem Parent_after_AddOption (c s : loc) (v : string) (h h' : heap) (o : OptionModel) :
  heap_wfb h = true → c ≠ s →
  nodes h !! c = Some o → is_Some (ChildOptionMap o) → is_Some (nodes h !! s) →
  AddOption growcap c v (Some s) h = Ok h' →
  (∀ oc, nodes h' !! c = Some oc →
     Child h' (default c (Head oc)) (slice_elems h' (Components oc)) = Ok (Some c, true)) →
  Parent h' s = Ok (Some c, v, true).
Proof.
  intros Hwf Hne Ho [m Hm] [os Hos] Hadd Hfound.
  destruct (AddOption_Some_spec growcap c s v h o m Ho Hm (ex_intro _ os Hos))
    as (h'' & Hadd' & Harr & _ & (oc' & Hoc' & _ & _ & Hsame) & Hsub).
  rewrite Hadd in Hadd'. injection Hadd' as <-.
  destruct (Hsame Hne) as [Hcomp Hhead].
  destruct (Hsub Hne os Hos) as (os' & Hos' & _ & _ & Hcomp' & Hhead').
  destruct (go_append growcap (Components o) v h) as [sl h2] eqn:Hga. simpl in *.
  pose proof (proj1 (heap_wfb_true h) Hwf c o Ho) as Hwfc.
  destruct (go_append_wf growcap growcap_ge h h2 _ _ v Hwfc Hga) as [Hwf1 _].
  destruct (go_append_elems growcap h h2 _ _ v Hwfc Hga) as [Hel1 Hel0].
  specialize (Hfound oc' Hoc'). rewrite Hcomp, Hhead in Hfound.
  rewrite (slice_elems_arrays h2 h') in Hfound by done. rewrite Hel0 in Hfound.
  assert (Hlen : s_len sl = S (length (slice_elems h (Components o)))).
  { rewrite <- (slice_elems_length h2 sl Hwf1), Hel1, length_app. simpl. lia. }
  unfold Parent, load. rewrite Hos'. simpl. rewrite Hhead', Hcomp', Hlen.
  rewrite (slice_elems_arrays h2 h') by done. rewrite Hel1.
  rewrite take_app_length. rewrite Hfound. simpl.
  by rewrite list_lookup_middle.
Qed.

Lemma scan_grows (h : heap) (p : loc) (rec : loc → list loc → res (list loc)) :
  (∀ c acc r, rec c acc = Ok r → length acc < length r) →
  ∀ es acc r, scan rec h p es acc = Ok r →
    length acc ≤ length r ∧ (es ≠ [] → length acc < length r).
Proof.
  intros Hrec es. induction es as [|[k [c|]] es IH]; intros acc r.
  - simpl. intros [= <-]. split; [lia|done].
  - rewrite scan_cons_Some. destruct (load h c) as [co| |]; simpl; try done.
    destruct (trip co).
    + intros [= <-]. rewrite length_app. simpl. split; [lia|]. intros _. lia.
    + destruct (rec c acc) as [r1| |] eqn:Hr1; simpl; try done.
      intros Hr. apply Hrec in Hr1. apply IH in Hr as [Hr _].
      split; [lia|]. intros _. lia.
  - simpl. intros [= <-]. rewrite length_app. simpl. split; [lia|]. intros _. lia.
Qed.

Lemma walk_grows (n : nat) (h : heap) :
  ∀ p acc r, walk range n h p acc = Ok r → length acc < length r.
Proof.
  induction n as [|n IH]; intros p acc r; simpl; [done|].
  destruct (load h p) as [o| |]; simpl; try done.
  destruct (decide (size (children o) = 0)) as [Hz|Hnz].
  - intros [= <-]. rewrite length_app. simpl. lia.
  - intros Hr. apply (scan_grows h p _ (IH)) in Hr as [_ Hr]. apply Hr.
    intros Hnil. apply Hnz. apply map_size_empty_iff, map_to_list_empty_iff.
    apply Permutation_nil_r. by rewrite <- range_perm, Hnil.
Qed.

(** LastChilds never returns the empty list: when it returns, some node
    was recorded. *)
Theorem LastChilds_nonempty (fuel : nat) (h : heap) (p : loc) (l : list loc) :
  LastChilds range fuel h p = Ok l → l ≠ [].
Proof.
  intros Hl%walk_grows ->. simpl in Hl. lia.
Qed.

Lemma scan_reach (h : heap) (p : loc) (o : OptionModel)
    (rec : loc → list loc → res (list loc)) :
  nodes h !! p = Some o →
  (∀ c acc r, rec c acc = Ok r → ∃ l, r = acc ++ l ∧ ∀ q, q ∈ l → reach h c q) →
  ∀ es acc r, (∀ e, e ∈ es → e ∈ range (children o)) →
    scan rec h p es acc = Ok r →
    ∃ l, r = acc ++ l ∧ ∀ q, q ∈ l → reach h p q.
Proof.
  intros Ho Hrec.
  assert (Hstop : ∀ acc r, Ok (acc ++ [p]) = Ok r →
    ∃ l, r = acc ++ l ∧ ∀ q, q ∈ l → reach h p q).
  { intros acc r [= <-]. exists [p]. split; [done|].
    intros q ->%list_elem_of_singleton. constructor. }
  induction es as [|[k [c|]] es IH]; intros acc r Hsub.
  - simpl. intros [= <-]. exists []. split; [by rewrite app_nil_r|].
    intros q Hq. inversion Hq.
  - rewrite scan_cons_Some. destruct (load h c) as [co| |]; simpl; try done.
    destruct (trip co); [apply Hstop|].
    destruct (rec c acc) as [r1| |] eqn:Hr1; simpl; try done. intros Hr.
    destruct (Hrec _ _ _ Hr1) as (l1 & -> & Hl1).
    destruct (IH (acc ++ l1) r) as (l2 & -> & Hl2); [|done|].
    { intros e He. apply Hsub. by right. }
    exists (l1 ++ l2). split; [by rewrite app_assoc|].
    intros q [Hq|Hq]%elem_of_app; [|by apply Hl2].
    eapply reach_child; [done| |by apply Hl1].
    apply (range_lookup range range_perm). apply Hsub. by left.
  - simpl. apply Hstop.
Qed.

Lemma walk_reach (n : nat) (h : heap) :
  ∀ p acc r, walk range n h p acc = Ok r →
    ∃ l, r = acc ++ l ∧ ∀ q, q ∈ l → reach h p q.
Proof.
  induction n as [|n IH]; intros p acc r; simpl; [done|].
  unfold load. destruct (nodes h !! p) as [o|] eqn:Ho; simpl; [|done].
  destruct (decide (size (children o) = 0)).
  - intros [= <-]. exists [p]. split; [done|].
    intros q ->%list_elem_of_singleton. constructor.
  - by apply (scan_reach h p o).
Qed.

(** Every node LastChilds returns is reached from the start node through
    non-nil entries of children maps. *)
Theorem LastChilds_reachable (fuel : nat) (h : heap) (p : loc) (l : list loc) :
  LastChilds range fuel h p = Ok l → ∀ q, q ∈ l → reach h p q.
Proof.
  intros (l' & -> & Hl')%walk_reach. exact Hl'.
Qed.

Lemma clearConfigs_touches (es : list (string * option loc)) :
  ∀ h h', clearConfigs es h = Ok h' →
    ∀ x, nodes h' !! x = nodes h !! x ∨ ∃ k, (k, Some x) ∈ es.
Proof.
  induction es as [|[k [c|]] es IH]; simpl; intros h h' Hr x.
  - injection Hr as <-. by left.
  - unfold modify, load in Hr. destruct (nodes h !! c) as [co|] eqn:Hco; [|done].
    simpl in Hr. destruct (IH _ _ Hr x) as [Hx|[k' Hk']].
    + destruct (decide (x = c)) as [->|Hne].
      * right. exists k. by left.
      * left. rewrite Hx. simpl. by rewrite lookup_insert_ne.
    + right. exists k'. by right.
  - done.
Qed.

Lemma removeFrom_touches (l : list loc) (h0 : heap) :
  ∀ hc h1, cleared h0 hc → removeFrom range l hc = Ok h1 →
    cleared hc h1
    ∧ ∀ x, nodes h1 !! x = nodes hc !! x
           ∨ ∃ n o k, n ∈ l ∧ nodes h0 !! n = Some o
                      ∧ children o !! k = Some (Some x).
Proof.
  induction l as [|n l IH]; simpl; intros hc h1 Hc Hr.
  - injection Hr as <-. split; [apply cleared_refl|]. by left.
  - unfold load in Hr. destruct (nodes hc !! n) as [o'|] eqn:Ho'; [|done]. simpl in Hr.
    destruct (clearConfigs (range (children o')) hc) as [h2| |] eqn:Hclr; try done.
    simpl in Hr. pose proof (clearConfigs_cleared _ _ _ Hclr) as Hc2.
    destruct (IH h2 h1 (cleared_trans _ _ _ Hc Hc2) Hr) as [Hc3 Hx3].
    split; [by eapply cleared_trans|]. intros x.
    assert (Hn0 : ∃ o, nodes h0 !! n = Some o ∧ children o = children o').
    { destruct (nodes h0 !! n) as [o|] eqn:Ho.
      - destruct (cleared_node _ _ _ _ Hc Ho) as (o'' & Ho'' & Hmap & _).
        rewrite Ho' in Ho''. injection Ho'' as <-. exists o. split; [done|].
        unfold children. by rewrite Hmap.
      - rewrite (cleared_None _ _ _ Hc Ho) in Ho'. done. }
    destruct Hn0 as (o & Ho & Hch).
    destruct (Hx3 x) as [Hx|(n' & o1 & k & Hn' & Ho1 & Hk)].
    + destruct (clearConfigs_touches _ _ _ Hclr x) as [Hx2|[k Hk]].
      * left. congruence.
      * right. exists n, o, k. split; [by left|]. split; [done|].
        rewrite Hch. by apply (range_lookup range range_perm).
    + right. exists n', o1, k. split; [by right|done].
Qed.

(** RemoveConfigs changes nothing but config names, and those only at
    nodes held under a node that LastChilds returns: paths, heads, titles
    and children maps are as before, and every other node is untouched. *)
Theorem RemoveConfigs_frame (fuel : nat) (h h1 : heap) (p : loc) (l : list loc) :
  LastChilds range fuel h p = Ok l →
  RemoveConfigs range fuel p h = Ok h1 →
  arrays h1 = arrays h
  ∧ ∀ x, nodes h1 !! x = nodes h !! x
         ∨ (nodes h1 !! x = set_Config EmptyString <$> nodes h !! x
            ∧ ∃ n o k, n ∈ l ∧ nodes h !! n = Some o ∧ children o !! k = Some (Some x)).
Proof.
  intros Hl. unfold RemoveConfigs. rewrite Hl. simpl. intros Hr.
  destruct (removeFrom_touches l h h h1 (cleared_refl h) Hr) as [[Ha Hc] Hx].
  split; [done|]. intros x. destruct (Hx x) as [Hsame|Hchild]; [by left|].
  destruct (Hc x) as [Hsame|Hclr]; [by left|]. by right.
Qed.

(** A node without children and without config name offers no value, so
    attaching below it does nothing at all. *)
Theorem AttachToLastChilds_nothing_offered (fuel : nat) (h : heap) (p : loc)
    (o : OptionModel) (opt : option loc) :
  nodes h !! p = Some o → size (children o) = 0 → Config o = EmptyString →
  AttachToLastChilds growcap range (S fuel) p opt h = Ok h.
Proof.
  intros Ho Hz Hcfg. unfold AttachToLastChilds, LastChilds. simpl.
  unfold load. rewrite Ho. simpl. destruct (decide _); [|done]. simpl.
  unfold GetValues, load. rewrite Ho. simpl. rewrite Hcfg. simpl.
  by rewrite (range_empty range range_perm _ Hz).
Qed.

End MoreTreeFacts.

(** ** Further properties of Copy *)

Section MoreCopyFacts.
Import Models.

Variable growcap : nat → nat → nat.

Lemma Copy_success (h h1 : heap) (p q : loc) (o : OptionModel) :
  nodes h !! p = Some o → Copy h p = Ok (Some q, h1) →
  ∃ jd, deepValue (S (size (nodes h))) h o = Ok jd
        ∧ json_Unmarshal (encodeJSON jd) h = (q, h1).
Proof.
  intros Ho Hc. unfold Copy, load in Hc. rewrite Ho in Hc. simpl in Hc.
  unfold json_Marshal in Hc.
  destruct (deepValue (S (size (nodes h))) h o) as [jd| |]; simpl in Hc; try done.
  destruct (json_Unmarshal (encodeJSON jd) h) as [q' h'] eqn:Hq.
  injection Hc as <- <-. by exists jd.
Qed.

(** A copy is a root: Parent of the node Copy returns finds nothing. *)
Theorem Copy_is_root (h h1 : heap) (p q : loc) (o : OptionModel) :
  nodes h !! p = Some o → Copy h p = Ok (Some q, h1) →
  Parent h1 q = Ok (None, EmptyString, false).
Proof.
  intros Ho Hc. destruct (Copy_success _ _ _ _ _ Ho Hc) as (jd & Hjd & Hq).
  destruct (json_Unmarshal_decodes _ h q h1 Hq) as (He & Hq0 & oq & Hoq & _).
  destruct He as (_ & _ & Hnew). destruct (Hnew q oq Hoq Hq0) as (_ & Hhead & _).
  unfold Parent, load. rewrite Hoq. simpl. by rewrite Hhead.
Qed.

(** Copy of a node without children always succeeds and gives a node
    whose children map is nil, so that adding anything below the copy
    panics (assignment to an entry of a nil map). *)
Theorem Copy_of_leaf_rejects_AddOption (h : heap) (p : loc) (o : OptionModel) :
  nodes h !! p = Some o → size (children o) = 0 →
  ∃ q h1, Copy h p = Ok (Some q, h1)
          ∧ ∀ v n, AddOption growcap q v n h1 = Panic.
Proof.
  intros Ho Hz.
  assert (Hj : ∃ kids, (kids = None ∨ kids = Some [])
      ∧ deepValue (S (size (nodes h))) h o
        = Ok (JObj (Title o) (EnvKey o) (Type_ o) kids (Config o))).
  { simpl. unfold children in Hz. destruct (ChildOptionMap o) as [m|]; simpl in *.
    - apply map_size_empty_iff in Hz. subst m. rewrite map_to_list_empty. simpl.
      exists (Some []). split; [by right|done].
    - exists None. split; [by left|done]. }
  destruct Hj as (kids & Hkids & Hjd).
  assert (Homit : encodeJSON (JObj (Title o) (EnvKey o) (Type_ o) kids (Config o))
                  = JObj (utf8_coerce (Title o)) (utf8_coerce (EnvKey o))
                      (utf8_coerce (Type_ o)) None (utf8_coerce (Config o)))
    by (by destruct Hkids as [-> | ->]).
  unfold Copy, load. rewrite Ho. cbn [res_bind]. unfold json_Marshal.
  rewrite Hjd, Homit. cbn [res_bind json_Unmarshal]. unfold alloc.
  eexists _, _. split; [reflexivity|].
  intros v n. unfold AddOption, load, store. simpl. by rewrite lookup_insert_eq.
Qed.

Lemma entry_shape_elem {A} (l : list (string * option A)) (k : string) (b : bool) :
  (k, b) ∈ entry_shape <$> l ↔
  ∃ c, (k, c) ∈ l ∧ b = if c is Some _ then true else false.
Proof.
  rewrite list_elem_of_fmap. split.
  - intros ([k' c] & [= -> ->] & Hin). by exists c.
  - intros (c & Hin & ->). by exists (k, c).
Qed.

Lemma encoded_shape (rec : OptionModel → res jval) (h : heap)
    (es : list (string * option loc)) (l : list (string * option jval)) :
  Forall2 (λ a b, encodeEntry rec h a = Ok b) es l →
  entry_shape <$> l = entry_shape <$> es.
Proof.
  induction 1 as [|[k c] b es l Hab _ IH]; simpl; [done|]. f_equal; [|done].
  unfold encodeEntry in Hab. simpl in Hab. destruct c as [c|]; [|by injection Hab as <-].
  destruct (load h c); simpl in Hab; try done.
  destruct (rec a); simpl in Hab; try done. by injection Hab as <-.
Qed.

Lemma alloc_lookup (o : OptionModel) (h h1 : heap) (q : loc) :
  alloc o h = (q, h1) → nodes h1 !! q = Some o.
Proof. unfold alloc, store. intros [= <- <-]. simpl. by rewrite lookup_insert_eq. Qed.

Lemma members_shape (rec : jval → heap → loc * heap) (l : list (string * option jval)) :
  ∀ h vs h', members rec l h = (vs, h') → entry_shape <$> vs = entry_shape <$> l.
Proof.
  induction l as [|[k [j'|]] l IH]; intros h vs h'; simpl.
  - by intros [= <- <-].
  - destruct (rec j' h) as [c h1]. destruct (members rec l h1) as [vs' h2] eqn:Hm.
    intros [= <- <-]. simpl. f_equal. by eapply IH.
  - destruct (members rec l h) as [vs' h2] eqn:Hm.
    intros [= <- <-]. simpl. f_equal. by eapply IH.
Qed.

(** The entries of the children map that decoding builds, by key and by
    whether they hold nil, against the entries of the map that was
    encoded. *)
Lemma copied_entries (f : OptionModel → res jval) (h0 h h2 : heap)
    (mo : gmap string (option loc)) (l : list (string * option jval))
    (vs : list (string * option loc)) (k' : string) (b : bool) :
  Forall2 (λ a b, encodeEntry f h0 a = Ok b) (map_to_list mo) l →
  members json_Unmarshal (merge_sort key_le (encodeMember encodeJSON <$> l)).*2 h = (vs, h2) →
  (k', b) ∈ entry_shape <$> vs
  ↔ ∃ k v, mo !! k = Some v ∧ utf8_coerce k = k'
           ∧ b = if v is Some _ then true else false.
Proof.
  intros Hl Hm. rewrite (members_shape _ _ _ _ _ Hm).
  apply encoded_shape in Hl. rewrite list_elem_of_fmap. split.
  - intros (y & Hy & (kc & Hin & ->)%encodeJSON_members).
    assert (Hs : entry_shape kc ∈ entry_shape <$> map_to_list mo).
    { rewrite <- Hl. apply list_elem_of_fmap. by exists kc. }
    destruct kc as [k oj]. apply entry_shape_elem in Hs as (v & Hv%elem_of_map_to_list & Hb).
    exists k, v. split; [done|]. unfold entry_shape in Hy. simpl in Hy.
    injection Hy as -> ->. split; [done|]. rewrite <- Hb. by destruct oj.
  - intros (k & v & Hv%elem_of_map_to_list & <- & ->).
    assert (Hs : (k, if v is Some _ then true else false) ∈ entry_shape <$> l).
    { rewrite Hl. apply entry_shape_elem. by exists v. }
    apply entry_shape_elem in Hs as (oj & Hin & Hb).
    exists (encodeMember encodeJSON (k, oj)).2. split.
    + unfold entry_shape. simpl. rewrite Hb. by destruct oj.
    + apply encodeJSON_members. by exists (k, oj).
Qed.

(** Copy coerces the title, the env key, the type and the config name of
    the node as the encoder does, and the keys of its children map: the
    keys of the copy are the coerced keys of the original, a key of the
    copy that holds nil comes from a key of the original that holds
    nil, and where the keys of the original are valid UTF-8 the copy has
    the same keys, and nil under the same ones. *)
Theorem Copy_fields_after_round_trip (h h1 : heap) (p q : loc) (o : OptionModel) :
  nodes h !! p = Some o → Copy h p = Ok (Some q, h1) →
  ∃ oq, nodes h1 !! q = Some oq
        ∧ Title oq = utf8_coerce (Title o) ∧ EnvKey oq = utf8_coerce (EnvKey o)
        ∧ Type_ oq = utf8_coerce (Type_ o) ∧ Config oq = utf8_coerce (Config o)
        ∧ (∀ k', is_Some (children oq !! k')
                 ↔ ∃ k, is_Some (children o !! k) ∧ utf8_coerce k = k')
        ∧ (∀ k', children oq !! k' = Some None →
                 ∃ k, children o !! k = Some None ∧ utf8_coerce k = k')
        ∧ ((∀ k, is_Some (children o !! k) → utf8_coerce k = k) →
           ∀ k, children oq !! k = Some None ↔ children o !! k = Some None).
Proof.
  intros Ho Hc. destruct (Copy_success _ _ _ _ _ Ho Hc) as (jd & Hjd & Hq).
  assert (Hshape : ∃ oq, nodes h1 !! q = Some oq
        ∧ Title oq = utf8_coerce (Title o) ∧ EnvKey oq = utf8_coerce (EnvKey o)
        ∧ Type_ oq = utf8_coerce (Type_ o) ∧ Config oq = utf8_coerce (Config o)
        ∧ (∀ k' v', children oq !! k' = Some v' →
             ∃ k v, children o !! k = Some v ∧ utf8_coerce k = k'
                    ∧ (v' = None ↔ v = None))
        ∧ (∀ k v, children o !! k = Some v → is_Some (children oq !! utf8_coerce k))).
  { simpl in Hjd. unfold children. destruct (ChildOptionMap o) as [mo|]; simpl in Hjd.
    - destruct (mapM_res _ (map_to_list mo)) as [l| |] eqn:Hl; simpl in Hjd; try done.
      injection Hjd as <-. apply mapM_res_Ok in Hl.
      destruct (decide (l = [])) as [->|Hne].
      + simpl in Hq. apply alloc_lookup in Hq. eexists. split; [exact Hq|]. simpl.
        apply Forall2_nil_inv_r in Hl. apply map_to_list_empty_iff in Hl. subst mo.
        repeat split; try done; intros ? ?; by rewrite lookup_empty.
      + rewrite encodeJSON_Some in Hq by done. simpl in Hq.
        destruct (members json_Unmarshal
                    (merge_sort key_le (encodeMember encodeJSON <$> l)).*2 h)
          as [vs h2] eqn:Hm.
        apply alloc_lookup in Hq.
        pose proof (λ k' b, copied_entries _ _ _ _ _ _ _ k' b Hl Hm) as Hent.
        eexists. split; [exact Hq|]. simpl. repeat split; try done.
        * intros k' v' Hk'. apply elem_of_list_to_map_2 in Hk'. rewrite elem_of_reverse in Hk'.
          assert (Hs : (k', if v' is Some _ then true else false) ∈ entry_shape <$> vs)
            by (apply entry_shape_elem; by exists v').
          apply Hent in Hs as (k & v & Hv & Hk & Hb). exists k, v.
          split; [done|]. split; [done|]. destruct v', v; done.
        * intros k v Hv.
          assert (Hs : (utf8_coerce k, if v is Some _ then true else false)
                       ∈ entry_shape <$> vs) by (apply Hent; by exists k, v).
          apply entry_shape_elem in Hs as (c & Hin & _).
          apply not_eq_None_Some. intros Hnone%not_elem_of_list_to_map.
          apply Hnone. apply list_elem_of_fmap. exists (utf8_coerce k, c).
          split; [done|]. by apply elem_of_reverse.
    - injection Hjd as <-. simpl in Hq. apply alloc_lookup in Hq.
      eexists. split; [exact Hq|]. simpl.
      repeat split; try done; intros ? ?; by rewrite lookup_empty. }
  destruct Hshape as (oq & Hoq & Ht & He & Hty & Hcf & Hfrom & Hto).
  exists oq. repeat (split; [done|]). split; [|split].
  - intros k'. split.
    + intros [v' Hv']. destruct (Hfrom k' v' Hv') as (k & v & Hv & Hk & _).
      exists k. split; [by exists v|done].
    + intros (k & [v Hv] & <-). by eapply Hto.
  - intros k' Hk'. destruct (Hfrom k' None Hk') as (k & v & Hv & Hk & Hnil).
    exists k. split; [|done]. rewrite Hv. f_equal. by apply Hnil.
  - intros Hvalid k. split.
    + intros Hk. destruct (Hfrom k None Hk) as (k0 & v & Hv & Hk0 & Hnil).
      rewrite (Hvalid k0) in Hk0 by (by exists v). subst k0.
      rewrite Hv. f_equal. by apply Hnil.
    + intros Hk. destruct (Hto k None Hk) as [v' Hv'].
      rewrite (Hvalid k) in Hv' by (by exists None).
      destruct (Hfrom k v' Hv') as (k0 & v & Hv & Hk0 & Hnil).
      rewrite (Hvalid k0) in Hk0 by (by exists v). subst k0.
      rewrite Hv' . f_equal. apply Hnil. congruence.
Qed.

End MoreCopyFacts.

(** ** Further properties of the walk *)

Section MoreWalkFacts.
Import Cli.
Context {W : Type}.
Variable askForValue : OptionModel → W → (string * string * error) * W.

Lemma OptionModel_nested_ind (P : OptionModel → Prop) :
  (∀ t e vm, Forall (λ kn : string * OptionModel, P kn.2) vm → P (mkOptionModel t e vm)) →
  ∀ o, P o.
Proof.
  intros Hstep. fix IH 1. intros [t e vm]. apply Hstep.
  induction vm as [|[k n] vm IHvm].
  - apply Forall_nil_2.
  - apply Forall_cons_2; [|exact IHvm]. simpl. apply IH.
Qed.

Lemma lookupValue_elem (v : string) (vm : list (string * OptionModel)) (n : OptionModel) :
  lookupValue v vm = Some n → (v, n) ∈ vm.
Proof.
  induction vm as [|[k n'] vm IH]; simpl; [done|].
  destruct (decide (k = v)) as [->|Hne].
  - intros [= ->]. by left.
  - intros Hn. right. by apply IH.
Qed.

(** The walk only appends to the assignments it started with, and every
    pair it appends has a non-empty key. *)
Theorem walkDepth_appends (o : OptionModel) :
  ∀ s, ∃ more,
    appEnvs (walkDepth askForValue o s).2 = appEnvs s ++ more
    ∧ Forall (λ kv : EnvironmentItemModel, kv.1 ≠ EmptyString) more.
Proof.
  induction o as [t e vm IH] using OptionModel_nested_ind. intros s.
  rewrite walkDepth_unfold.
  destruct (askForValue _ (world s)) as [[[k v] [er|]] w]; simpl.
  { exists []. by rewrite app_nil_r. }
  assert (Hstep : ∃ more0, appEnvs (stepState s k v w) = appEnvs s ++ more0
            ∧ Forall (λ kv : EnvironmentItemModel, kv.1 ≠ EmptyString) more0).
  { unfold stepState. destruct (decide (k = EmptyString)); simpl.
    - exists []. by rewrite app_nil_r.
    - exists [(k, v)]. split; [done|]. by constructor. }
  destruct Hstep as (more0 & Hm0 & Hf0).
  destruct (lookupValue v vm) as [n|] eqn:Hn; simpl; [|by exists more0].
  apply lookupValue_elem in Hn. rewrite Forall_forall in IH.
  destruct (IH _ Hn (stepState s k v w)) as (more1 & Hm1 & Hf1). simpl in Hm1.
  exists (more0 ++ more1). rewrite Hm1, Hm0, app_assoc. split; [done|].
  by apply Forall_app.
Qed.

(** The only error the walk returns is a failure of the selection
    strategy, wrapped: whenever the walk returns an error, the strategy
    returned an error at some node, and the walk's error is that one
    behind the prefix of line 175. *)
Theorem walkDepth_error_is_strategy_error (o : OptionModel) :
  ∀ s e, (walkDepth askForValue o s).1 = Some e →
    ∃ o' w k v e' w',
      askForValue o' w = ((k, v, Some e'), w')
      ∧ e = "Failed to ask for vale, error: " +:+ e'.
Proof.
  induction o as [t e0 vm IH] using OptionModel_nested_ind. intros s e.
  rewrite walkDepth_unfold.
  destruct (askForValue _ (world s)) as [[[k v] [er|]] w] eqn:Hask; simpl.
  { intros [= <-]. by eexists _, _, _, _, _, _. }
  destruct (lookupValue v vm) as [n|] eqn:Hn; simpl; [|done].
  apply lookupValue_elem in Hn. rewrite Forall_forall in IH.
  apply (IH _ Hn).
Qed.

End MoreWalkFacts.

(** ** The further properties at the sample trees *)

Lemma two_configs_root :
  ∃ o, Models.nodes Models.two_configs !! 1%positive = Some o
       ∧ is_Some (Models.ChildOptionMap o).
Proof. vm_compute. eauto. Defined.

Lemma AddOption_then_Child_witness :
  ∃ h', Models.AddOption Models.gc_growcap 1%positive "a" (Some 4%positive)
          Models.two_configs = Ok h'
        ∧ Models.Child h' 1%positive ["a"] = Ok (Some 4%positive, true).
Proof.
  destruct two_configs_root as (o & Ho & Hm).
  destruct (AddOption_then_Child Models.gc_growcap 1%positive 4%positive "a"
              Models.two_configs o Ho Hm) as (h' & Hadd & Hchild & _).
  - vm_compute. eauto.
  - exists h'. split; [exact Hadd|exact Hchild].
Defined.

Lemma AddOption_nil_entry_witness :
  ∃ h', Models.AddOption Models.gc_growcap 1%positive "a" None Models.two_configs = Ok h'
        ∧ Models.Child h' 1%positive ["a"] = Ok (None, false)
        ∧ Models.terminal Models.range_canonical h' 1%positive.
Proof.
  destruct two_configs_root as (o & Ho & Hm).
  destruct (AddOption_nil_entry Models.range_canonical range_canonical_perm
              Models.gc_growcap 1%positive "a" Models.two_configs o Ho Hm)
    as (h' & Hadd & Hchild & Hterm & _).
  exists h'. split; [exact Hadd|]. split; [exact Hchild|exact Hterm].
Defined.

Lemma GetValues_keys_witness :
  ∃ vs, Models.GetValues Models.range_canonical Models.two_configs 1%positive = Ok vs
        ∧ NoDup vs ∧ length vs = 2.
Proof.
  destruct two_configs_root as (o & Ho & _).
  pose proof (GetValues_keys Models.range_canonical range_canonical_perm
                Models.two_configs 1%positive o Ho) as H.
  vm_compute in Ho. injection Ho as <-.
  destruct H as (vs & Hvs & _ & Hnd & Hlen).
  exists vs. split; [exact Hvs|]. split; [exact Hnd|exact Hlen].
Defined.

Lemma Parent_after_AddOption_witness :
  Models.Parent
    (Models.from_ok (Models.AddOption Models.gc_growcap 1%positive "z" (Some 4%positive)
                       Models.two_configs))
    4%positive
  = Ok (Some 1%positive, "z", true).
Proof.
  destruct two_configs_root as (o & Ho & Hm).
  apply (Parent_after_AddOption Models.gc_growcap gc_growcap_ge 1%positive 4%positive "z"
           Models.two_configs _ o).
  - vm_compute. reflexivity.
  - discriminate.
  - exact Ho.
  - exact Hm.
  - vm_compute. eauto.
  - vm_compute. reflexivity.
  - intros oc Hoc. vm_compute in Hoc. injection Hoc as <-. vm_compute. reflexivity.
Defined.

Lemma LastChilds_nonempty_witness : [1%positive] ≠ [].
Proof.
  apply (LastChilds_nonempty Models.range_canonical range_canonical_perm 2
           Models.two_configs 1%positive).
  vm_compute. reflexivity.
Defined.

Lemma LastChilds_reachable_witness :
  Models.reach Models.two_configs 1%positive 1%positive.
Proof.
  apply (LastChilds_reachable Models.range_canonical range_canonical_perm 2
           Models.two_configs 1%positive [1%positive]).
  - vm_compute. reflexivity.
  - apply list_elem_of_here.
Defined.

Lemma RemoveConfigs_frame_witness :
  let h1 := Models.from_ok
              (Models.RemoveConfigs Models.range_canonical 2 1%positive Models.two_configs) in
  Models.arrays h1 = Models.arrays Models.two_configs
  ∧ ∀ x, Models.nodes h1 !! x = Models.nodes Models.two_configs !! x
         ∨ (Models.nodes h1 !! x
              = Models.set_Config EmptyString <$> Models.nodes Models.two_configs !! x
            ∧ ∃ n o k, n ∈ [1%positive] ∧ Models.nodes Models.two_configs !! n = Some o
                       ∧ Models.children o !! k = Some (Some x)).
Proof.
  apply (RemoveConfigs_frame Models.range_canonical range_canonical_perm 2
           Models.two_configs _ 1%positive [1%positive]).
  - vm_compute. reflexivity.
  - vm_compute. reflexivity.
Defined.

Lemma AttachToLastChilds_nothing_offered_witness :
  Models.AttachToLastChilds Models.gc_growcap Models.range_canonical 1 4%positive
    (Some 2%positive) Models.two_configs = Ok Models.two_configs.
Proof.
  eapply (AttachToLastChilds_nothing_offered Models.range_canonical range_canonical_perm
            Models.gc_growcap 0 Models.two_configs 4%positive).
  - vm_compute. reflexivity.
  - vm_compute. reflexivity.
  - vm_compute. reflexivity.
Defined.

Lemma two_configs_root_copy :
  ∃ o q h1, Models.nodes Models.two_configs !! 1%positive = Some o
            ∧ Models.Copy Models.two_configs 1%positive = Ok (Some q, h1).
Proof. vm_compute. eauto 10. Defined.

Lemma invalid_utf8_root_copy :
  ∃ o q h1, Models.nodes Models.invalid_utf8 !! 1%positive = Some o
            ∧ Models.Copy Models.invalid_utf8 1%positive = Ok (Some q, h1).
Proof. vm_compute. eauto 10. Defined.

Lemma Copy_is_root_witness :
  ∃ q h1, Models.Copy Models.two_configs 1%positive = Ok (Some q, h1)
          ∧ Models.Parent h1 q = Ok (None, EmptyString, false).
Proof.
  destruct two_configs_root_copy as (o & q & h1 & Ho & Hc).
  exists q, h1. split; [exact Hc|].
  exact (Copy_is_root Models.two_configs h1 1%positive q o Ho Hc).
Defined.

Lemma Copy_of_leaf_rejects_AddOption_witness :
  ∃ q h1, Models.Copy Models.two_configs 2%positive = Ok (Some q, h1)
          ∧ ∀ v n, Models.AddOption Models.gc_growcap q v n h1 = Panic.
Proof.
  eapply (Copy_of_leaf_rejects_AddOption Models.gc_growcap Models.two_configs 2%positive).
  - vm_compute. reflexivity.
  - vm_compute. reflexivity.
Defined.

Lemma Copy_fields_after_round_trip_witness :
  ∃ q h1 oq, Models.Copy Models.invalid_utf8 1%positive = Ok (Some q, h1)
             ∧ Models.nodes h1 !! q = Some oq
             ∧ Models.Title oq = Models.replacement EmptyString
             ∧ ∀ k', is_Some (Models.children oq !! k')
                     ↔ ∃ k, is_Some (({[ Models.byte_string 254 := None;
                                         Models.byte_string 255 := Some 2%positive ]}
                                        : gmap string (option positive)) !! k)
                            ∧ Models.utf8_coerce k = k'.
Proof.
  destruct invalid_utf8_root_copy as (o & q & h1 & Ho & Hc).
  destruct (Copy_fields_after_round_trip Models.invalid_utf8 h1 1%positive q o Ho Hc)
    as (oq & Hoq & Ht & _ & _ & _ & Hkeys & _).
  vm_compute in Ho. injection Ho as <-.
  exists q, h1, oq. split; [exact Hc|]. split; [exact Hoq|]. split; [exact Ht|exact Hkeys].
Defined.

Lemma walkDepth_error_is_strategy_error_witness :
  ∃ (o' : Cli.OptionModel) (w : nat) k v e' w',
    CliSamples.failing o' w = ((k, v, Some e'), w')
    ∧ "Failed to ask for vale, error: EOF" = "Failed to ask for vale, error: " +:+ e'.
Proof.
  apply (walkDepth_error_is_strategy_error CliSamples.failing CliSamples.scheme_tree
           CliSamples.start).
  reflexivity.
Defined.
